(** * The Canva extractor of yt-dlp ([yt_dlp/extractor/canva.py])

    A shallow embedding of [CanvaIE] and the properties of its three phases:
    page resolution, export initiation and export polling, together with
    the anti-hijack response transform.

    Python [str] values are modelled as lists of 8-bit characters, that is
    code points 0..255; [str.lower], [\s], [\d] and [.] are given on that
    range as Python defines them there. *)

From Stdlib Require Import Ascii String DecimalString.
From Stdlib Require Import List ZArith Lia Bool Arith.
Import ListNotations.


(** ** Text *)

Definition text := list ascii.

Notation "$ s" := (String.list_ascii_of_string s%string) (at level 5, s at level 0, format "$ s").

(** The double quote, code point 34. *)
Definition dq : ascii := ascii_of_nat 34.

Definition code (c : ascii) : nat := nat_of_ascii c.

Definition chr_eqb (a b : ascii) : bool := Ascii.eqb a b.

Fixpoint text_eqb (a b : text) : bool :=
  match a, b with
  | [], [] => true
  | x :: a', y :: b' => chr_eqb x y && text_eqb a' b'
  | _, _ => false
  end.

(** [a.startswith(b)] *)
Fixpoint starts_with (b a : text) : bool :=
  match b, a with
  | [], _ => true
  | x :: b', y :: a' => chr_eqb x y && starts_with b' a'
  | _ :: _, [] => false
  end.

(** [needle in hay] on [str] *)
Fixpoint contains (needle hay : text) : bool :=
  starts_with needle hay ||
  match hay with
  | [] => false
  | _ :: hay' => contains needle hay'
  end.

(** [c.lower()] for one code point below 256: the letters A-Z and the
    Latin-1 capitals 192-222 (without the sign 215) move up by 32. *)
Definition lower_chr (c : ascii) : ascii :=
  let n := code c in
  if ((65 <=? n) && (n <=? 90)) || ((192 <=? n) && (n <=? 222) && negb (n =? 215))
  then ascii_of_nat (n + 32) else c.

(** [s.lower()] *)
Definition lower (s : text) : text := map lower_chr s.

(** Python truthiness of an optional string: [None] and [''] are false. *)
Definition truthy (o : option text) : bool :=
  match o with
  | Some (_ :: _) => true
  | _ => false
  end.

(** [a or b] on optional strings. *)
Definition py_or (a b : option text) : option text :=
  if truthy a then a else b.

(** [str(n)] for a non-negative integer. *)
Definition str_of_nat (n : nat) : text :=
  String.list_ascii_of_string (DecimalString.NilEmpty.string_of_uint (Nat.to_uint n)).

(** ** Regular expressions

    The fragment of Python's [re] syntax that the extractor's three
    patterns use.  Repetition is only ever applied to a character class
    ([.*?], [\s*], [\d+], [[^/]+]); groups are numbered. *)

Inductive regex : Type :=
| Eps
| Bol                                   (* ^ without re.MULTILINE *)
| Lit (c : ascii)
| Cls (p : ascii -> bool)
| Cat (r1 r2 : regex)
| Alt (r1 r2 : regex)
| Opt (r : regex)                       (* (?:r)? *)
| Rep (greedy : bool) (p : ascii -> bool)  (* p* and p*? *)
| Grp (n : nat) (r : regex).            (* n-th capturing group *)

Definition Plus (p : ascii -> bool) : regex := Cat (Cls p) (Rep true p).

Fixpoint lit (s : text) : regex :=
  match s with
  | [] => Eps
  | c :: s' => Cat (Lit c) (lit s')
  end.

Fixpoint cat (rs : list regex) : regex :=
  match rs with
  | [] => Eps
  | [r] => r
  | r :: rs' => Cat r (cat rs')
  end.

(** [.] : anything but a line feed. *)
Definition dot (c : ascii) : bool := negb (code c =? 10).

(** [\s] on code points below 256. *)
Definition space (c : ascii) : bool :=
  let n := code c in
  ((9 <=? n) && (n <=? 13)) || ((28 <=? n) && (n <=? 32)) || (n =? 133) || (n =? 160).

(** [\d] on code points below 256. *)
Definition digit (c : ascii) : bool :=
  let n := code c in (48 <=? n) && (n <=? 57).

(** [[^/]] *)
Definition not_slash (c : ascii) : bool := negb (code c =? 47).

(** The state of one matching attempt: the absolute position reached, the
    text still to read and the groups captured so far on this path. *)
Record mstate : Type := MState {
  pos : nat;
  rest : text;
  groups : list (nat * text)
}.

Definition set_group (n : nat) (g : text) (st : mstate) : mstate :=
  MState (pos st) (rest st) ((n, g) :: groups st).

Fixpoint assoc_nat (n : nat) (l : list (nat * text)) : option text :=
  match l with
  | [] => None
  | (m, g) :: l' => if n =? m then Some g else assoc_nat n l'
  end.

(** [mobj.group(n)] *)
Definition group (n : nat) (st : mstate) : option text := assoc_nat n (groups st).

Definition orelse {A} (a b : option A) : option A :=
  match a with
  | Some x => Some x
  | None => b
  end.

(** Greedy repetition: take as many characters as possible, give them back
    one at a time while the continuation fails. *)
Fixpoint rep_greedy {A} (p : ascii -> bool) (s : text) (n : nat) (gs : list (nat * text))
    (k : mstate -> option A) : option A :=
  match s with
  | c :: s' =>
      if p c then orelse (rep_greedy p s' (S n) gs k) (k (MState n s gs))
      else k (MState n s gs)
  | [] => k (MState n s gs)
  end.

(** Lazy repetition: try the continuation first, take one more character
    only when it fails. *)
Fixpoint rep_lazy {A} (p : ascii -> bool) (s : text) (n : nat) (gs : list (nat * text))
    (k : mstate -> option A) : option A :=
  orelse (k (MState n s gs))
    match s with
    | c :: s' => if p c then rep_lazy p s' (S n) gs k else None
    | [] => None
    end.

(** The backtracking matcher, in continuation-passing style: the first
    alternative is explored first, as [re] does. *)
Fixpoint run {A} (r : regex) (st : mstate) (k : mstate -> option A) : option A :=
  match r with
  | Eps => k st
  | Bol => if pos st =? 0 then k st else None
  | Lit c =>
      match rest st with
      | a :: s' => if chr_eqb a c then k (MState (S (pos st)) s' (groups st)) else None
      | [] => None
      end
  | Cls p =>
      match rest st with
      | a :: s' => if p a then k (MState (S (pos st)) s' (groups st)) else None
      | [] => None
      end
  | Cat r1 r2 => run r1 st (fun st1 => run r2 st1 k)
  | Alt r1 r2 => orelse (run r1 st k) (run r2 st k)
  | Opt r1 => orelse (run r1 st k) (k st)
  | Rep true p => rep_greedy p (rest st) (pos st) (groups st) k
  | Rep false p => rep_lazy p (rest st) (pos st) (groups st) k
  | Grp n r1 =>
      run r1 st (fun st1 => k (set_group n (firstn (pos st1 - pos st) (rest st)) st1))
  end.

(** One attempt at absolute position [n], where [s] is the text from there. *)
Definition match_at (r : regex) (n : nat) (s : text) : option mstate :=
  run r (MState n s []) (@Some mstate).

(** [re.match(r, s)] *)
Definition re_match (r : regex) (s : text) : option mstate := match_at r 0 s.

(** [re.search(r, s)]: the leftmost position that matches. *)
Fixpoint search_from (r : regex) (n : nat) (s : text) : option mstate :=
  match match_at r n s with
  | Some st => Some st
  | None =>
      match s with
      | [] => None
      | _ :: s' => search_from r (S n) s'
      end
  end.

Definition re_search (r : regex) (s : text) : option mstate := search_from r 0 s.

(** [re.sub(r, '', s)]: every non-overlapping match, from left to right, is
    deleted.  [skip] counts the characters of the current match that are
    still to be dropped.  A match of the empty string deletes nothing; the
    scan then moves on by one character. *)
Fixpoint sub_from (r : regex) (n : nat) (skip : nat) (s : text) : text :=
  match skip with
  | S skip' =>
      match s with
      | [] => []
      | _ :: s' => sub_from r (S n) skip' s'
      end
  | 0 =>
      match s with
      | [] => []
      | c :: s' =>
          match match_at r n s with
          | Some st =>
              match pos st - n with
              | S len => sub_from r (S n) len s'
              | 0 => c :: sub_from r (S n) 0 s'
              end
          | None => c :: sub_from r (S n) 0 s'
          end
      end
  end.

Definition re_sub_empty (r : regex) (s : text) : text := sub_from r 0 0 s.

(** ** What the matcher accepts

    [matches r st st'] : reading [r] from state [st] can end in state
    [st'].  The relation says which ends are possible; [run] says which one
    is taken. *)

Inductive matches : regex -> mstate -> mstate -> Prop :=
| m_eps st : matches Eps st st
| m_bol st : pos st = 0 -> matches Bol st st
| m_lit c n s gs : matches (Lit c) (MState n (c :: s) gs) (MState (S n) s gs)
| m_cls (p : ascii -> bool) c n s gs :
    p c = true -> matches (Cls p) (MState n (c :: s) gs) (MState (S n) s gs)
| m_cat r1 r2 st st1 st2 :
    matches r1 st st1 -> matches r2 st1 st2 -> matches (Cat r1 r2) st st2
| m_alt_l r1 r2 st st1 : matches r1 st st1 -> matches (Alt r1 r2) st st1
| m_alt_r r1 r2 st st1 : matches r2 st st1 -> matches (Alt r1 r2) st st1
| m_opt_in r st st1 : matches r st st1 -> matches (Opt r) st st1
| m_opt_out r st : matches (Opt r) st st
| m_rep g p w n s gs :
    forallb p w = true ->
    matches (Rep g p) (MState n (w ++ s) gs) (MState (n + length w) s gs)
| m_grp i r st st1 :
    matches r st st1 ->
    matches (Grp i r) st (set_group i (firstn (pos st1 - pos st) (rest st)) st1).

Create HintDb re.
#[local] Hint Constructors matches : re.

(** ** [CanvaIE]: constants and the anti-hijack transform *)

(** [_JSON_HIJACK_RE = r'''^.*?while\s*\(\s*1\s*\)\s*;\s*</x>//'''] *)
Definition guard_re : regex :=
  cat [lit $"while"; Rep true space; Lit "("; Rep true space; Lit "1"; Rep true space;
       Lit ")"; Rep true space; Lit ";"; Rep true space; lit $"</x>//"].

Definition _JSON_HIJACK_RE : regex := cat [Bol; Rep false dot; guard_re].

Definition _POLLING_INTERVAL : nat := 3.
Definition _POLLING_MAX_ATTEMPTS : nat := 30.

(** [_strip_json_hijack(self, data)] *)
Definition _strip_json_hijack (data : text) : text := re_sub_empty _JSON_HIJACK_RE data.

(** ** The guard token

    [while\s*\(\s*1\s*\)\s*;\s*</x>//], said without the matcher. *)

Definition is_guard (g : text) : Prop :=
  exists w1 w2 w3 w4 w5,
    forallb space w1 = true /\ forallb space w2 = true /\ forallb space w3 = true /\
    forallb space w4 = true /\ forallb space w5 = true /\
    g = $"while" ++ w1 ++ $"(" ++ w2 ++ $"1" ++ w3 ++ $")" ++ w4 ++ $";" ++ w5 ++ $"</x>//".

(** The guard token occurs somewhere in [s]. *)
Definition guard_occurs (s : text) : Prop :=
  exists pre g post, s = pre ++ g ++ post /\ is_guard g.

(** No line feed in [s]. *)
Definition one_line (s : text) : Prop := forallb dot s = true.

Ltac invert_matches :=
  repeat match goal with
  | H : matches (Cat _ _) _ _ |- _ => inversion H; subst; clear H
  | H : matches (Lit _) _ _ |- _ => inversion H; subst; clear H
  | H : matches (Cls _) _ _ |- _ => inversion H; subst; clear H
  | H : matches (Rep _ _) _ _ |- _ => inversion H; subst; clear H
  | H : matches Eps _ _ |- _ => inversion H; subst; clear H
  | H : matches Bol _ _ |- _ => inversion H; subst; clear H
  | H : matches (Grp _ _) _ _ |- _ => inversion H; subst; clear H
  end.

(** ** JSON values, as [json.loads] returns them

    An object is kept as the list of its members; [lookup] reads the first
    member with the given name.  Numbers are integers: no path that the
    extractor reads ends in a number. *)

#[warnings="-register-all"]
Inductive json : Type :=
| JNull
| JBool (b : bool)
| JNum (z : Z)
| JStr (s : text)
| JArr (items : list json)
| JObj (members : list (text * json)).

Fixpoint lookup (name : text) (members : list (text * json)) : option json :=
  match members with
  | [] => None
  | (k, v) :: members' => if text_eqb k name then Some v else lookup name members'
  end.

(** One step of a path: a member name or a list index. *)
Inductive key : Type :=
| K (name : text)
| I (index : nat).

Definition step (obj : json) (k : key) : option json :=
  match k, obj with
  | K name, JObj members => lookup name members
  | I index, JArr items => nth_error items index
  | _, _ => None
  end.

Fixpoint traverse (obj : json) (path : list key) : option json :=
  match path with
  | [] => Some obj
  | k :: path' =>
      match step obj k with
      | Some v => traverse v path'
      | None => None
      end
  end.

(** Modelled from the spec: [traverse_obj] of [yt_dlp.utils], which is not
    among the sources.  "Traverse a JSON tree by path, tolerate missing
    keys, optionally coerce to a type ... returning absence rather than
    throwing": the path is followed, then the last element of the path,
    a one-element set [{f}], filters or converts the value found. *)
Definition traverse_obj {A} (obj : json) (path : list key) (f : json -> option A) : option A :=
  match traverse obj path with
  | Some v => f v
  | None => None
  end.

(** The path element [{str}]: keep the value only if it is a string. *)
Definition str (v : json) : option text :=
  match v with
  | JStr s => Some s
  | _ => None
  end.

(** ** Numbers read from the page

    Python's [float] is the IEEE 754 binary64 format.  A finite
    non-negative value is [m * 2^e]; the decimal text is rounded to the
    nearest such value, ties to even. *)

Inductive pyfloat : Type :=
| Finite (m e : Z)
| Infinity.

Definition digit_val (c : ascii) : Z := Z.of_nat (code c) - 48.

Fixpoint digits_val (acc : Z) (s : text) : Z :=
  match s with
  | [] => acc
  | c :: s' => digits_val (10 * acc + digit_val c) s'
  end.

Fixpoint span_digits (s : text) : text * text :=
  match s with
  | c :: s' => if digit c then let (a, b) := span_digits s' in (c :: a, b) else ([], s)
  | [] => ([], [])
  end.

(** The literals [\d+(?:\.\d+)?]: the numerator and the number of
    fractional digits. *)
Definition parse_decimal (s : text) : option (Z * nat) :=
  match span_digits s with
  | ((_ :: _) as ip, []) => Some (digits_val 0 ip, 0%nat)
  | ((_ :: _) as ip, dotc :: ((_ :: _) as fp)) =>
      if chr_eqb dotc "." && forallb digit fp
      then Some (digits_val (digits_val 0 ip) fp, length fp)
      else None
  | _ => None
  end.

(** [n / d] rounded to the nearest integer, ties to even ([0 < d]). *)
Definition round_half_even (n d : Z) : Z :=
  let q := (n / d)%Z in
  let r := (n mod d)%Z in
  if (2 * r <? d)%Z then q
  else if (d <? 2 * r)%Z then (q + 1)%Z
  else if Z.even q then q else (q + 1)%Z.

(** [n / (d * 2^e)] as a pair of integers. *)
Definition scaled (n d e : Z) : Z * Z :=
  if (0 <=? e)%Z then (n, (d * 2 ^ e)%Z) else ((n * 2 ^ (- e))%Z, d).

(** The binary64 value nearest to [n / d], for [0 <= n] and [0 < d]. *)
Definition float_of_ratio (n d : Z) : pyfloat :=
  if (n =? 0)%Z then Finite 0 0
  else
    let e0 := (Z.log2 n - Z.log2 d - 53)%Z in
    let '(n0, d0) := scaled n d e0 in
    let e1 := if (2 ^ 53 <=? n0 / d0)%Z then (e0 + 1)%Z else e0 in
    let e := Z.max e1 (-1074) in
    let '(n1, d1) := scaled n d e in
    let m := round_half_even n1 d1 in
    if (2 ^ 1024 <=? m * 2 ^ e)%Z then Infinity else Finite m e.

(** Modelled from the spec: [float_or_none] of [yt_dlp.utils], which is not
    among the sources.  Dimensions are "parsed from floating-point page
    fields": [float(v)], or [None] when [v] is [None] or is not a number.
    The model reads the literals that the dimension pattern can capture. *)
Definition float_or_none (v : option text) : option pyfloat :=
  match v with
  | Some s =>
      match parse_decimal s with
      | Some (n, k) => Some (float_of_ratio n (10 ^ Z.of_nat k))
      | None => None
      end
  | None => None
  end.

(** Modelled from the spec: [int_or_none] of [yt_dlp.utils], which is not
    among the sources.  The float is "coerced to integers": [int(v)], which
    truncates, or [None] when [int] raises, as it does on an infinity. *)
Definition int_or_none (v : option pyfloat) : option Z :=
  match v with
  | Some (Finite m e) => Some (if (0 <=? e)%Z then (m * 2 ^ e)%Z else (m / 2 ^ (- e))%Z)
  | Some Infinity => None
  | None => None
  end.

(** ** The host application

    What [InfoExtractor] and [yt_dlp.utils] supply and the extractor takes
    for granted: the JSON parser, the URL check and the HTML metadata
    helpers.  They are not among the sources; the extractor is embedded
    over any implementation of them. *)

Class Host : Type := {
  (** [json.loads]; [None] when it raises *)
  json_loads : text -> option json;
  (** [url_or_none] of [yt_dlp.utils]: the URL if the value is a
      well-formed one *)
  url_or_none : json -> option text;
  (** [self._og_search_title(webpage, default=None)] *)
  _og_search_title : text -> option text;
  (** [self._html_extract_title(webpage)] *)
  _html_extract_title : text -> option text;
  (** [self._og_search_thumbnail(webpage, default=None)] *)
  _og_search_thumbnail : text -> option text
}.

(** ** Effects

    The extractor talks to the network and sleeps through the host.  The
    world holds what the network will answer (the page, then the bodies of
    the JSON responses in the order they are requested) and the calls made
    so far, oldest first. *)

Inductive event : Type :=
| Download_webpage (url video_id : text)
| Download_json (url video_id note : text) (query : list (text * text)) (data : option json)
| Sleep (interval : nat) (video_id msg : text).

Record world : Type := World {
  webpage_response : option text;
  json_responses : list (option text);
  trace : list event
}.

Inductive exn : Type :=
| ExtractorError (msg : text) (expected : bool)
| AttributeError
| DownloadError.      (* raised inside the host: network or JSON failure *)

Inductive outcome (A : Type) : Type :=
| Return (a : A)
| Raise (e : exn).

Arguments Return {A} a.
Arguments Raise {A} e.

Definition M (A : Type) : Type := world -> outcome A * world.

Definition ret {A} (a : A) : M A := fun w => (Return a, w).

Definition raise {A} (e : exn) : M A := fun w => (Raise e, w).

Definition bind {A B} (m : M A) (f : A -> M B) : M B :=
  fun w =>
    match m w with
    | (Return a, w') => f a w'
    | (Raise e, w') => (Raise e, w')
    end.

Notation "x <- m ;; f" := (bind m (fun x => f))
  (at level 61, m at next level, right associativity).
Notation "m ;;; f" := (bind m (fun _ => f))
  (at level 61, right associativity).

Definition log (e : event) (w : world) : world :=
  World (webpage_response w) (json_responses w) (trace w ++ [e]).

Definition next_response (w : world) : world :=
  World (webpage_response w) (tl (json_responses w)) (trace w).

(** Modelled from the spec: [InfoExtractor._download_webpage], "fetch(url,
    impersonate) -> text; failures propagate as network errors".  Always
    called with [impersonate=True]. *)
Definition _download_webpage (url video_id : text) : M text :=
  fun w =>
    match webpage_response w with
    | Some page => (Return page, log (Download_webpage url video_id) w)
    | None => (Raise DownloadError, log (Download_webpage url video_id) w)
    end.

(** Modelled from the spec: [InfoExtractor._download_json], "fetchJson(url,
    method, query?, body?, headers?, responseTransform?, impersonate) ->
    parsed JSON": the next response is taken, [transform_source] is applied
    to its body and the result parsed.  A failed request or a body that
    does not parse raises.  Always called with [impersonate=True]. *)
Definition _download_json `{Host} (url video_id note : text) (query : list (text * text))
    (data : option json) (transform_source : text -> text) : M json :=
  fun w =>
    let w' := next_response (log (Download_json url video_id note query data) w) in
    match json_responses w with
    | Some body :: _ =>
        match json_loads (transform_source body) with
        | Some j => (Return j, w')
        | None => (Raise DownloadError, w')
        end
    | _ => (Raise DownloadError, w')
    end.

(** Modelled from the spec: [InfoExtractor._sleep], "sleep(seconds,
    contextId, progressMessageTemplate)". *)
Definition _sleep (interval : nat) (video_id msg : text) : M unit :=
  fun w => (Return tt, log (Sleep interval video_id msg) w).

(** [for x in xs: body] followed by [after]; the body answers [Some v] when
    it executes [return v]. *)
Fixpoint for_in {A R} (xs : list A) (body : A -> M (option R)) (after : M R) : M R :=
  match xs with
  | [] => after
  | x :: xs' =>
      r <- body x ;;
      match r with
      | Some v => ret v
      | None => for_in xs' body after
      end
  end.

(** Modelled from the spec: [InfoExtractor._search_regex] with
    [default=None, group=(g1, g2)]: [re.search], then the two groups of the
    match, or [None] when the pattern is absent. *)
Definition _search_regex (pattern : regex) (s : text) (g1 g2 : nat)
    : option (option text * option text) :=
  match re_search pattern s with
  | Some m => Some (group g1 m, group g2 m)
  | None => None
  end.

(** ** [CanvaIE] *)

(** [_VALID_URL =
    r'https?://(?:www\.)?canva\.com/design/(?P<id>[^/]+)/(?P<token>[^/]+)/(?:watch|view)'];
    [id] is group 1 and [token] group 2. *)
Definition _VALID_URL : regex :=
  cat [lit $"http"; Opt (Lit "s"); lit $"://"; Opt (lit $"www."); lit $"canva.com/design/";
       Grp 1 (Plus not_slash); Lit "/"; Grp 2 (Plus not_slash); Lit "/";
       Alt (lit $"watch") (lit $"view")].

(** Modelled from the spec: [InfoExtractor._match_valid_url], which is
    [re.match(_VALID_URL, url)]; here followed by [.group('id', 'token')]. *)
Definition _match_valid_url (url : text) : option (text * text) :=
  match re_match _VALID_URL url with
  | Some m =>
      match group 1 m, group 2 m with
      | Some video_id, Some token => Some (video_id, token)
      | _, _ => None
      end
  | None => None
  end.

Definition ws : regex := Rep true space.

(** [\d+(?:\.\d+)?] *)
Definition number_re : regex := Cat (Plus digit) (Opt (Cat (Lit ".") (Plus digit))).

(** The dimension pattern of [_real_extract]:
    ["C"\s*:\s*\{\s*"A"\s*:\s*(\d+(?:\.\d+)?)\s*,\s*"B"\s*:\s*(\d+(?:\.\d+)?)\s*,\s*"C"\s*:\s*"D"\s*\}] *)
Definition dimensions_re : regex :=
  cat [Lit dq; Lit "C"; Lit dq; ws; Lit ":"; ws; Lit "{"; ws;
       Lit dq; Lit "A"; Lit dq; ws; Lit ":"; ws; Grp 1 number_re; ws; Lit ","; ws;
       Lit dq; Lit "B"; Lit dq; ws; Lit ":"; ws; Grp 2 number_re; ws; Lit ","; ws;
       Lit dq; Lit "C"; Lit dq; ws; Lit ":"; ws; Lit dq; Lit "D"; Lit dq; ws; Lit "}"].

(** The result handed to the host. *)
Record info : Type := Info {
  info_id : text;
  info_title : option text;
  info_url : text;
  info_ext : text;
  info_thumbnail : option text;
  info_width : option Z;
  info_height : option Z
}.

Definition json_of_int (z : option Z) : json :=
  match z with
  | Some n => JNum n
  | None => JNull
  end.

(** The body of the export request (lines 78-103). *)
Definition export_request (video_id token : text) (width height : option Z) : json :=
  JObj [
    ($"priority", JStr $"HIGH");
    ($"pollable", JBool true);
    ($"useSkiaRenderer", JBool true);
    ($"renderSpec", JObj [
      ($"content", JObj [
        ($"schema", JStr $"web-2");
        ($"type", JStr $"DOCUMENT_REFERENCE");
        ($"id", JStr video_id);
        ($"version", JNum (-1));
        ($"prefetch", JBool true);
        ($"extension", JStr token)]);
      ($"mediaQuality", JStr $"PRINT");
      ($"mediaDpi", JNum 96);
      ($"preferWatermarkedMedia", JBool true);
      ($"pages", JArr [JNum 1])]);
    ($"outputSpecs", JArr [JObj [
      ($"destination", JObj [($"type", JStr $"DOWNLOAD")]);
      ($"pages", JArr [JNum 1]);
      ($"type", JStr $"MP4");
      ($"width", json_of_int width);
      ($"height", json_of_int height)]])].

Definition access_denied_message : text :=
  $"You do not have permission to access this design. The owner must share it as "
  ++ dq :: $"Anyone with the link can view" ++ [dq].

(** Lines 56: ['permission' in webpage.lower() or 'Request access' in webpage]. *)
Definition access_denied (webpage : text) : bool :=
  contains $"permission" (lower webpage) || contains $"Request access" webpage.

(** Lines 65-71. *)
Definition dimensions (webpage : text) : option Z * option Z :=
  match _search_regex dimensions_re webpage 1 2 with
  | Some (d0, d1) => (int_or_none (float_or_none d0), int_or_none (float_or_none d1))
  | None => (Some 1920%Z, Some 1080%Z)
  end.

Definition export_url : text := $"https://www.canva.com/_ajax/export".

Definition sleep_message (attempt : nat) : text :=
  $"%(video_id)s: Waiting for export to complete (attempt " ++ str_of_nat attempt
  ++ $"/" ++ str_of_nat _POLLING_MAX_ATTEMPTS ++ $")".

Definition poll_note (attempt : nat) : text :=
  $"Polling export status (attempt " ++ str_of_nat attempt ++ $")".

Section CanvaIE.

Context `{Host}.

(** One turn of the loop of lines 112-143: [Some] is the [return]. *)
Definition poll_once (video_id export_id : text) (title thumbnail : option text)
    (width height : option Z) (attempt : nat) : M (option info) :=
  _sleep _POLLING_INTERVAL video_id (sleep_message attempt) ;;;
  poll_data <- _download_json (export_url ++ $"/" ++ export_id) video_id (poll_note attempt)
                 [($"attachment", [])] None _strip_json_hijack ;;
  let status := traverse_obj poll_data [K $"export"; K $"status"] str in
  match status with
  | Some s =>
      if text_eqb s $"COMPLETE" then
        let video_url :=
          py_or (traverse_obj poll_data
                   [K $"export"; K $"output"; K $"exportBlobs"; I 0; K $"url"] url_or_none)
                (traverse_obj poll_data
                   [K $"export"; K $"exportBlobs"; I 0; K $"url"] url_or_none) in
        match video_url with
        | Some ((_ :: _) as u) =>
            ret (Some (Info video_id
                         (py_or (traverse_obj poll_data
                                   [K $"export"; K $"output"; K $"title"] str) title)
                         u $"mp4" thumbnail width height))
        | _ => raise (ExtractorError $"Export completed but no download URL found" false)
        end
      else if text_eqb s $"FAILED" then
        raise (ExtractorError $"Canva export failed on the server side" false)
      else ret None
  | None => ret None
  end.

(** Lines 112-146: the polling loop and the failure after it. *)
Definition poll_export (video_id export_id : text) (title thumbnail : option text)
    (width height : option Z) : M info :=
  for_in (seq 1 _POLLING_MAX_ATTEMPTS)
    (poll_once video_id export_id title thumbnail width height)
    (raise (ExtractorError
              ($"Export did not complete after " ++ str_of_nat _POLLING_MAX_ATTEMPTS
               ++ $" attempts") false)).

(** [CanvaIE._real_extract(self, url)] *)
Definition _real_extract (url : text) : M info :=
  match _match_valid_url url with
  | None => raise AttributeError
  | Some (video_id, token) =>
      webpage <- _download_webpage url video_id ;;
      if access_denied webpage then raise (ExtractorError access_denied_message true)
      else
        let title := py_or (_og_search_title webpage) (_html_extract_title webpage) in
        let thumbnail := _og_search_thumbnail webpage in
        let '(width, height) := dimensions webpage in
        export_data <- _download_json export_url video_id $"Initiating video export"
                         [($"version", $"2"); ($"inline", $"false")]
                         (Some (export_request video_id token width height))
                         _strip_json_hijack ;;
        let export_id := traverse_obj export_data [K $"export"; K $"exportIdentifier"] str in
        match export_id with
        | Some ((_ :: _) as export_id) =>
            poll_export video_id export_id title thumbnail width height
        | _ => raise (ExtractorError $"Failed to get export identifier from Canva API" false)
        end
  end.

End CanvaIE.

(** ** Checks that compute *)

(** The line feed, code point 10. *)
Definition newline : ascii := ascii_of_nat 10.

Definition is_some {A} (o : option A) : bool :=
  match o with
  | Some _ => true
  | None => false
  end.

(** Does the guard token occur in [s]?  By search. *)
Definition has_guard (s : text) : bool := is_some (re_search guard_re s).

(** Does a guard token begin at one of the first [n] positions of [s]? *)
Fixpoint guard_within (n : nat) (s : text) : bool :=
  match n with
  | 0 => false
  | S n' =>
      is_some (match_at guard_re 0 s) ||
      match s with
      | [] => false
      | _ :: s' => guard_within n' s'
      end
  end.

(** ** Vocabulary of the specification *)

(** The failures by the names the specification gives them. *)
Definition AccessDeniedError : exn := ExtractorError access_denied_message true.
Definition ProtocolError_no_identifier : exn :=
  ExtractorError $"Failed to get export identifier from Canva API" false.
Definition ProtocolError_no_url : exn :=
  ExtractorError $"Export completed but no download URL found" false.
Definition RemoteJobError : exn :=
  ExtractorError $"Canva export failed on the server side" false.
Definition TimeoutError : exn :=
  ExtractorError $"Export did not complete after 30 attempts" false.

(** [m] is [marker] up to letter case. *)
Definition any_case_of (marker m : text) : Prop := lower m = lower marker.

(** [needle] occurs in [hay]. *)
Definition occurs (needle hay : text) : Prop :=
  exists pre post, hay = pre ++ needle ++ post.

(** The two calls of one polling cycle: the delay, then the fetch. *)
Definition cycle (video_id export_id : text) (attempt : nat) : list event :=
  [Sleep 3 video_id (sleep_message attempt);
   Download_json (export_url ++ $"/" ++ export_id) video_id (poll_note attempt)
     [($"attachment", [])] None].

(** The cycles of attempts [1..n]. *)
Definition cycles (video_id export_id : text) (n : nat) : list event :=
  flat_map (cycle video_id export_id) (seq 1 n).

Definition is_poll_request (e : event) : bool :=
  match e with
  | Download_json _ _ _ _ None => true
  | _ => false
  end.

Definition is_export_request (e : event) : bool :=
  match e with
  | Download_json _ _ _ _ (Some _) => true
  | _ => false
  end.

(** The initiate-export call. *)
Definition initiate_event (video_id token : text) (width height : option Z) : event :=
  Download_json export_url video_id $"Initiating video export"
    [($"version", $"2"); ($"inline", $"false")]
    (Some (export_request video_id token width height)).

(** [export.status] of a poll response. *)
Definition status_of (poll_data : json) : option text :=
  traverse_obj poll_data [K $"export"; K $"status"] str.

Definition url_path_1 : list key :=
  [K $"export"; K $"output"; K $"exportBlobs"; I 0; K $"url"].
Definition url_path_2 : list key :=
  [K $"export"; K $"exportBlobs"; I 0; K $"url"].

Section Vocabulary.

Context `{Host}.

(** What [_download_json] returns for a response, the transform applied. *)
Definition parsed (response : option text) : option json :=
  match response with
  | Some body => json_loads (_strip_json_hijack body)
  | None => None
  end.

(** A response that leaves the job running: it parses and its status is
    neither [COMPLETE] nor [FAILED]. *)
Definition pending (response : option text) : Prop :=
  exists j, parsed response = Some j /\
            status_of j <> Some $"COMPLETE" /\ status_of j <> Some $"FAILED".

(** A well-formed (and non-empty) URL at [path]. *)
Definition url_at (poll_data : json) (path : list key) : option text :=
  match traverse_obj poll_data path url_or_none with
  | Some (c :: u) => Some (c :: u)
  | _ => None
  end.

(** The title of the result: the job's output title, else the page's. *)
Definition result_title (poll_data : json) (title : option text) : option text :=
  match traverse_obj poll_data [K $"export"; K $"output"; K $"title"] str with
  | Some (c :: t) => Some (c :: t)
  | _ => title
  end.

End Vocabulary.

(** ** A host for the examples

    Its JSON parser knows the texts the examples use and nothing else; its
    URL check accepts the strings that begin with [http]. *)

Definition quoted (s : text) : text := dq :: s ++ [dq].

Definition status_text (status : text) : text :=
  $"{" ++ quoted $"export" ++ $":{" ++ quoted $"status" ++ $":" ++ quoted status ++ $"}}".

Definition status_json (status : text) : json :=
  JObj [($"export", JObj [($"status", JStr status)])].

Definition complete_text : text :=
  $"{" ++ quoted $"export" ++ $":{" ++ quoted $"status" ++ $":" ++ quoted $"COMPLETE"
  ++ $"," ++ quoted $"output" ++ $":{" ++ quoted $"exportBlobs" ++ $":[{" ++ quoted $"url"
  ++ $":" ++ quoted $"https://export-download.canva.com/v.mp4" ++ $"}]}}}".

Definition complete_json : json :=
  JObj [($"export", JObj [
    ($"status", JStr $"COMPLETE");
    ($"output", JObj [($"exportBlobs",
       JArr [JObj [($"url", JStr $"https://export-download.canva.com/v.mp4")]])])])].

Definition identifier_text : text :=
  $"{" ++ quoted $"export" ++ $":{" ++ quoted $"exportIdentifier" ++ $":" ++ quoted $"E1"
  ++ $"}}".

Definition identifier_json : json :=
  JObj [($"export", JObj [($"exportIdentifier", JStr $"E1")])].

Definition demo_json_loads (s : text) : option json :=
  if text_eqb s (status_text $"PENDING") then Some (status_json $"PENDING")
  else if text_eqb s (status_text $"FAILED") then Some (status_json $"FAILED")
  else if text_eqb s (status_text $"COMPLETE") then Some (status_json $"COMPLETE")
  else if text_eqb s complete_text then Some complete_json
  else if text_eqb s identifier_text then Some identifier_json
  else if text_eqb s $"{}" then Some (JObj [])
  else None.

Definition demo_url_or_none (v : json) : option text :=
  match v with
  | JStr s => if starts_with $"http" s then Some s else None
  | _ => None
  end.

Definition demo_host : Host := {|
  json_loads := demo_json_loads;
  url_or_none := demo_url_or_none;
  _og_search_title := fun _ => Some $"Untitled design";
  _html_extract_title := fun _ => None;
  _og_search_thumbnail := fun _ => None
|}.

(** A response as the server sends it: the guard, then the JSON text. *)
Definition guarded (payload : text) : option text :=
  Some ($"while(1);</x>//" ++ payload).

Definition demo_url : text :=
  $"https://www.canva.com/design/DAHCoH4To0w/XUSdhfH274kIWC8SBYGDeQ/watch".

Definition demo_id : text := $"DAHCoH4To0w".
Definition demo_token : text := $"XUSdhfH274kIWC8SBYGDeQ".

(** Thirty pending responses, then one that would complete. *)
Definition world_never_done : world :=
  World None (repeat (guarded (status_text $"PENDING")) 30 ++ [guarded complete_text]) [].


Definition world_failed_first : world :=
  World None [guarded (status_text $"FAILED"); guarded complete_text] [].

Definition world_complete_no_url : world :=
  World None
    [guarded (status_text $"PENDING"); guarded (status_text $"COMPLETE");
     guarded complete_text] [].

Definition world_no_identifier : world :=
  World (Some $"<html><title>Design</title></html>")
    [guarded $"{}"; guarded complete_text] [].

Definition world_request_access : world :=
  World (Some $"<a>Request access</a>") [guarded identifier_text] [].

Definition world_permission_title : world :=
  World (Some $"<title>PERMISSION slip for the school trip</title>")
    [guarded identifier_text; guarded complete_text] [].

(** The page says [request access] in small letters; the server would
    export the design. *)
Definition world_request_access_small : world :=
  World (Some $"<p>How to request access to a shared folder</p>")
    [guarded identifier_text; guarded complete_text] [].

(** ** The dimension fragment, said without the matcher *)

(** [\d+(?:\.\d+)?] *)
Definition is_number (n : text) : Prop :=
  exists ip frac,
    n = ip ++ frac /\ ip <> [] /\ forallb digit ip = true /\
    (frac = [] \/ exists fp, frac = "."%char :: fp /\ fp <> [] /\ forallb digit fp = true).

(** The text the dimension pattern describes: [w 0 .. w 13] are the
    fourteen runs of whitespace, [n1] and [n2] the two numbers. *)
Definition dimensions_fragment (w : nat -> text) (n1 n2 : text) : text :=
  quoted $"C" ++ w 0 ++ $":" ++ w 1 ++ $"{" ++ w 2 ++
  quoted $"A" ++ w 3 ++ $":" ++ w 4 ++ n1 ++ w 5 ++ $"," ++ w 6 ++
  quoted $"B" ++ w 7 ++ $":" ++ w 8 ++ n2 ++ w 9 ++ $"," ++ w 10 ++
  quoted $"C" ++ w 11 ++ $":" ++ w 12 ++ quoted $"D" ++ w 13 ++ $"}".

Definition is_dimensions (frag n1 n2 : text) : Prop :=
  exists w, (forall i, forallb space (w i) = true) /\
            is_number n1 /\ is_number n2 /\ frag = dimensions_fragment w n1 n2.

(** The pattern is present in the page. *)
Definition dimensions_occur (page : text) : Prop :=
  exists pre frag post n1 n2, page = pre ++ frag ++ post /\ is_dimensions frag n1 n2.

(** The example of the specification: ["C":{"A":1280.0,"B":720.0,"C":"D"}] *)
Definition dimensions_example : text :=
  quoted $"C" ++ $":{" ++ quoted $"A" ++ $":1280.0," ++ quoted $"B" ++ $":720.0,"
  ++ quoted $"C" ++ $":" ++ quoted $"D" ++ $"}".

(** Does the dimension pattern match at one of the first [n] positions? *)
Fixpoint dimensions_within (n : nat) (s : text) : bool :=
  match n with
  | 0 => false
  | S n' =>
      is_some (match_at dimensions_re 0 s) ||
      match s with
      | [] => false
      | _ :: s' => dimensions_within n' s'
      end
  end.

(** The text [t] begins with a character outside the class [p]. *)
Definition starts_outside (p : ascii -> bool) (t : text) : Prop :=
  match t with
  | c :: _ => p c = false
  | [] => False
  end.

(** What follows a number in the dimension fragment: whitespace, then a
    comma. *)
Definition comma_follows (t : text) : Prop :=
  exists a r, forallb space a = true /\ t = a ++ ","%char :: r.

(** ** Further vocabulary *)

(** A URL of the shape [_VALID_URL] describes: the scheme, the optional
    [www.], the two path segments, [watch] or [view], and whatever
    follows. *)
Definition canva_url (https www : bool) (video_id token : text) (watch : bool)
    (tail : text) : text :=
  $"http" ++ (if https then $"s" else []) ++ $"://" ++ (if www then $"www." else [])
  ++ $"canva.com/design/" ++ video_id ++ $"/" ++ token ++ $"/"
  ++ (if watch then $"watch" else $"view") ++ tail.

(** A path segment: not empty and without a slash. *)
Definition is_segment (s : text) : Prop := s <> [] /\ forallb not_slash s = true.

(** The seconds slept in a list of calls. *)
Fixpoint total_sleep (evs : list event) : nat :=
  match evs with
  | [] => 0
  | Sleep interval _ _ :: evs' => interval + total_sleep evs'
  | _ :: evs' => total_sleep evs'
  end.

Definition is_page_request (e : event) : bool :=
  match e with
  | Download_webpage _ _ => true
  | _ => false
  end.

(** Builds a derivation of [matches] along the text at hand. *)
Ltac build_matches :=
  cbn [set_group pos rest groups];
  lazymatch goal with
  | |- matches (Cat _ _) _ _ => eapply m_cat; [build_matches | build_matches]
  | |- matches (Lit _) _ _ => apply m_lit
  | |- matches Eps _ _ => apply m_eps
  | |- matches (Cls _) _ _ => apply m_cls; assumption
  | |- matches (Rep _ _) _ _ => apply m_rep; assumption
  | |- matches (Opt _) _ _ => first [apply m_opt_in; build_matches | apply m_opt_out]
  | |- matches (Alt _ _) _ _ =>
      first [apply m_alt_l; build_matches | apply m_alt_r; build_matches]
  | |- matches (Grp _ _) _ _ => eapply m_grp; build_matches
  end.

Section PollerVocabulary.

Context `{Host}.

(** What the poller answers on a response with status [COMPLETE]. *)
Definition complete_outcome (video_id : text) (title thumbnail : option text)
    (width height : option Z) (poll_data : json) : outcome info :=
  match url_at poll_data url_path_1 with
  | Some u =>
      Return (Info video_id (result_title poll_data title) u $"mp4" thumbnail width height)
  | None =>
      match url_at poll_data url_path_2 with
      | Some u =>
          Return (Info video_id (result_title poll_data title) u $"mp4" thumbnail width height)
      | None => Raise ProtocolError_no_url
      end
  end.

(** A response that the host cannot turn into JSON: there is none, the
    request failed, or the body does not parse. *)
Definition broken (responses : list (option text)) : Prop :=
  responses = [] \/ exists r rest, responses = r :: rest /\ parsed r = None.

End PollerVocabulary.

(** The world after [k] polling cycles that left [rest] unread. *)
Definition after_cycles (video_id export_id : text) (w : world) (k : nat)
    (rest : list (option text)) : world :=
  World (webpage_response w) rest (trace w ++ cycles video_id export_id k).

(** Two pending responses, then the job fails. *)
Definition world_failed_third : world :=
  World None
    [guarded (status_text $"PENDING"); guarded (status_text $"PENDING");
     guarded (status_text $"FAILED"); guarded complete_text] [].

(** One pending response, then a body that is not JSON. *)
Definition world_garbled_second : world :=
  World None
    [guarded (status_text $"PENDING"); Some $"<html>502 Bad Gateway</html>";
     guarded complete_text] [].

Definition is_json_request (e : event) : bool :=
  match e with
  | Download_json _ _ _ _ _ => true
  | _ => false
  end.

Section ExtractorVocabulary.

Context `{Host}.

(** The page title the extractor falls back on: the social-metadata title,
    else the HTML title. *)
Definition page_title (page : text) : option text :=
  py_or (_og_search_title page) (_html_extract_title page).

End ExtractorVocabulary.

(** The two calls that precede the polling. *)
Definition opening (url video_id token page : text) : list event :=
  [Download_webpage url video_id;
   initiate_event video_id token (fst (dimensions page)) (snd (dimensions page))].

(** The extractor gets an identifier but the export never completes. *)
Definition world_identifier_then_pending : world :=
  World (Some $"<html><title>Design</title></html>")
    (guarded identifier_text :: repeat (guarded (status_text $"PENDING")) 31) [].

(** The export request is answered but the identifier is the empty string. *)
Definition empty_identifier_text : text :=
  $"{" ++ quoted $"export" ++ $":{" ++ quoted $"exportIdentifier" ++ $":" ++ quoted []
  ++ $"}}".

Definition empty_identifier_json : json :=
  JObj [($"export", JObj [($"exportIdentifier", JStr [])])].

(** A host that also reads [empty_identifier_text]. *)
Definition demo_host_2 : Host := {|
  json_loads := fun s =>
    if text_eqb s empty_identifier_text then Some empty_identifier_json
    else demo_json_loads s;
  url_or_none := demo_url_or_none;
  _og_search_title := fun _ => None;
  _html_extract_title := fun _ => Some $"Design";
  _og_search_thumbnail := fun _ => Some $"https://document-export.canva.com/screen"
|}.

Definition world_empty_identifier : world :=
  World (Some $"<html><title>Design</title></html>")
    [guarded empty_identifier_text; guarded complete_text] [].

(** The export request gets no usable answer. *)
Definition world_export_request_fails : world :=
  World (Some $"<html><title>Design</title></html>") [None; guarded complete_text] [].

(** A design that is exported at the second poll. *)
Definition world_exported : world :=
  World (Some ($"<script>bootstrap={" ++ dimensions_example ++ $"};</script>"))
    [guarded identifier_text; guarded (status_text $"PENDING"); guarded complete_text] [].

(** The digit zero. *)
Definition is_zero (c : ascii) : bool := chr_eqb c "0".

(** A number literal that denotes an integer: digits, with at most a
    fraction of zeros after them. *)
Definition is_integral (ip frac : text) : Prop :=
  ip <> [] /\ forallb digit ip = true /\
  (frac = [] \/
   exists zeros, frac = "."%char :: zeros /\ zeros <> [] /\ forallb is_zero zeros = true).

(** Closes a goal whose hypotheses equate two different outcomes. *)
Ltac absurd_outcome :=
  try discriminate;
  try match goal with
      | E : Raise _ = Raise _ |- _ => injection E as E; vm_compute in E; discriminate E
      end.

(** ** The nearest float, said without the algorithm

    The quotient [n / (d * 2^e)] is kept as the fraction
    [num n e / den d e]. *)

Definition num (n e : Z) : Z := (n * 2 ^ Z.max 0 (- e))%Z.
Definition den (d e : Z) : Z := (d * 2 ^ Z.max 0 e)%Z.

(** [m] is the integer nearest to [n / d], the even one of the two when
    [n / d] lies half way ([0 < d]). *)
Definition nearest_even (n d m : Z) : Prop :=
  (2 * Z.abs (m * d - n) <= d)%Z /\
  ((2 * Z.abs (m * d - n) = d)%Z -> Z.even m = true).

(** [m * 2^e] is [n / d] rounded to binary64, before the test for overflow:
    the exponent [e] leaves 53 significant bits, [2^52 <= n / (d * 2^e) <
    2^53], or is the least exponent, -1074, for a smaller quotient; [m] is
    the nearest integer to [n / (d * 2^e)], ties to even. *)
Definition rounds_to (n d m e : Z) : Prop :=
  nearest_even (num n e) (den d e) m /\
  ((-1074 <= e)%Z /\ (2 ^ 52 * den d e <= num n e < 2 ^ 53 * den d e)%Z
   \/ (e = -1074 /\ num n e < 2 ^ 52 * den d e)%Z).

(** The rounded value is beyond the largest float. *)
Definition overflows (m e : Z) : Prop := (0 <= e /\ 2 ^ 1024 <= m * 2 ^ e)%Z.

(** The integer part of [m * 2^e]. *)
Definition truncated (m e : Z) : Z := (m * 2 ^ Z.max 0 e / 2 ^ Z.max 0 (- e))%Z.

(** The number a literal [\d+(?:\.\d+)?] denotes, as a fraction: all its
    digits over ten to the number of digits after the point. *)
Definition denotes (n : text) (N D : Z) : Prop :=
  exists ip fp,
    forallb digit ip = true /\ forallb digit fp = true /\
    (n = ip /\ fp = [] \/ n = ip ++ "."%char :: fp) /\
    N = digits_val 0 (ip ++ fp) /\ D = (10 ^ Z.of_nat (length fp))%Z.

(** A dimension too large for a float: 1 followed by 309 zeros. *)
Definition huge_number : text := "1"%char :: repeat "0"%char 309.

Definition huge_dimensions_page : text :=
  $"<script>" ++ quoted $"C" ++ $":{" ++ quoted $"A" ++ $":" ++ huge_number ++ $","
  ++ quoted $"B" ++ $":720.0," ++ quoted $"C" ++ $":" ++ quoted $"D" ++ $"}</script>".

(** * Properties *)

(** ** The matcher *)

Lemma orelse_some {A} (a b : option A) x :
  orelse a b = Some x -> a = Some x \/ (a = None /\ b = Some x).
Proof. destruct a; simpl; intros H; [left | right]; auto. Qed.

Lemma orelse_none {A} (a b : option A) :
  orelse a b = None <-> a = None /\ b = None.
Proof. destruct a; simpl; split; intros H; try tauto; try discriminate; destruct H; discriminate. Qed.

Lemma chr_eqb_eq a b : chr_eqb a b = true <-> a = b.
Proof. apply Ascii.eqb_eq. Qed.

Lemma rep_greedy_sound {A} p (k : mstate -> option A) gs x : forall s n,
  rep_greedy p s n gs k = Some x ->
  exists w s', s = w ++ s' /\ forallb p w = true /\ k (MState (n + length w) s' gs) = Some x.
Proof.
  induction s as [|c s IH]; intros n H; simpl in H.
  - exists [], []. rewrite Nat.add_0_r. auto.
  - destruct (p c) eqn:Hc.
    + apply orelse_some in H. destruct H as [H | [_ H]].
      * apply IH in H. destruct H as (w & s' & -> & Hw & Hk).
        exists (c :: w), s'. simpl. rewrite Hc, Hw.
        replace (n + S (length w)) with (S n + length w) by lia. auto.
      * exists [], (c :: s). rewrite Nat.add_0_r. auto.
    + exists [], (c :: s). rewrite Nat.add_0_r. auto.
Qed.

Lemma rep_lazy_sound {A} p (k : mstate -> option A) gs x : forall s n,
  rep_lazy p s n gs k = Some x ->
  exists w s', s = w ++ s' /\ forallb p w = true /\ k (MState (n + length w) s' gs) = Some x.
Proof.
  induction s as [|c s IH]; intros n H; simpl in H; apply orelse_some in H.
  - destruct H as [H | [_ H]]; [|discriminate].
    exists [], []. rewrite Nat.add_0_r. auto.
  - destruct H as [H | [_ H]].
    + exists [], (c :: s). rewrite Nat.add_0_r. auto.
    + destruct (p c) eqn:Hc; [|discriminate].
      apply IH in H. destruct H as (w & s' & -> & Hw & Hk).
      exists (c :: w), s'. simpl. rewrite Hc, Hw.
      replace (n + S (length w)) with (S n + length w) by lia. auto.
Qed.

(** Whatever [run] returns was produced by the continuation at an end the
    relation allows. *)
Lemma run_sound {A} : forall r st (k : mstate -> option A) x,
  run r st k = Some x -> exists st', matches r st st' /\ k st' = Some x.
Proof.
  induction r; intros st k x H; simpl in H.
  - eauto with re.
  - destruct (pos st =? 0) eqn:E; [|discriminate].
    apply Nat.eqb_eq in E. eauto with re.
  - destruct st as [n s gs]; simpl in *. destruct s as [|a s]; [discriminate|].
    destruct (chr_eqb a c) eqn:E; [|discriminate].
    apply chr_eqb_eq in E. subst. eauto with re.
  - destruct st as [n s gs]; simpl in *. destruct s as [|a s]; [discriminate|].
    destruct (p a) eqn:E; [|discriminate]. eauto with re.
  - apply IHr1 in H. destruct H as (st1 & H1 & H).
    apply IHr2 in H. destruct H as (st2 & H2 & H). eauto with re.
  - apply orelse_some in H. destruct H as [H | [_ H]].
    + apply IHr1 in H. destruct H as (st1 & H1 & H). eauto with re.
    + apply IHr2 in H. destruct H as (st1 & H1 & H). eauto with re.
  - apply orelse_some in H. destruct H as [H | [_ H]].
    + apply IHr in H. destruct H as (st1 & H1 & H). eauto with re.
    + eauto with re.
  - destruct st as [n s gs]; simpl in *.
    assert (exists w s', s = w ++ s' /\ forallb p w = true /\
                         k (MState (n + length w) s' gs) = Some x) as (w & s' & -> & Hw & Hk).
    { destruct greedy; [eapply rep_greedy_sound | eapply rep_lazy_sound]; eauto. }
    eauto with re.
  - apply IHr in H. destruct H as (st1 & H1 & H). eauto with re.
Qed.

Lemma rep_greedy_complete {A} p (k : mstate -> option A) gs : forall w s n,
  forallb p w = true -> k (MState (n + length w) s gs) <> None ->
  rep_greedy p (w ++ s) n gs k <> None.
Proof.
  induction w as [|c w IH]; intros s n Hw Hk; simpl in *.
  - rewrite Nat.add_0_r in Hk. destruct s as [|c s]; simpl; auto.
    destruct (p c); auto. rewrite orelse_none. tauto.
  - apply andb_prop in Hw. destruct Hw as [Hc Hw]. rewrite Hc.
    rewrite orelse_none. intros [H _]. revert H. apply IH; auto.
    replace (S n + length w) with (n + S (length w)) by lia. auto.
Qed.

Lemma rep_lazy_complete {A} p (k : mstate -> option A) gs : forall w s n,
  forallb p w = true -> k (MState (n + length w) s gs) <> None ->
  rep_lazy p (w ++ s) n gs k <> None.
Proof.
  induction w as [|c w IH]; intros s n Hw Hk; simpl in *.
  - rewrite Nat.add_0_r in Hk. destruct s; simpl; rewrite orelse_none; tauto.
  - apply andb_prop in Hw. destruct Hw as [Hc Hw]. rewrite Hc.
    rewrite orelse_none. intros [_ H]. revert H. apply IH; auto.
    replace (S n + length w) with (n + S (length w)) by lia. auto.
Qed.

(** If the relation allows an end at which the continuation succeeds, [run]
    succeeds (possibly at another end, by priority). *)
Lemma run_complete {A} : forall r st st' (k : mstate -> option A),
  matches r st st' -> k st' <> None -> run r st k <> None.
Proof.
  intros r st st' k H. revert k.
  induction H; intros k Hk; simpl; auto.
  - rewrite H. auto.
  - unfold chr_eqb. rewrite Ascii.eqb_refl. auto.
  - rewrite H. auto.
  - rewrite orelse_none. intros [H1 _]. apply (IHmatches k Hk H1).
  - rewrite orelse_none. intros [_ H1]. apply (IHmatches k Hk H1).
  - rewrite orelse_none. intros [H1 _]. apply (IHmatches k Hk H1).
  - rewrite orelse_none. tauto.
  - destruct g; [apply rep_greedy_complete | apply rep_lazy_complete]; auto.
Qed.

(** A match reads a prefix of the remaining text and moves the position by
    its length. *)
Lemma matches_reads r st st' :
  matches r st st' ->
  exists w, rest st = w ++ rest st' /\ pos st' = pos st + length w.
Proof.
  induction 1; simpl.
  - exists []; auto.
  - exists []; auto.
  - exists [c]; simpl; split; auto; lia.
  - exists [c]; simpl; split; auto; lia.
  - destruct IHmatches1 as (w1 & E1 & P1), IHmatches2 as (w2 & E2 & P2).
    exists (w1 ++ w2). rewrite E1, E2, P2, P1, length_app, app_assoc. split; auto; lia.
  - auto.
  - auto.
  - auto.
  - exists []; auto.
  - exists w; auto.
  - auto.
Qed.

Lemma is_guard_length g : is_guard g -> 15 <= length g.
Proof.
  intros (w1 & w2 & w3 & w4 & w5 & _ & _ & _ & _ & _ & ->).
  repeat (rewrite length_app; simpl). lia.
Qed.

Lemma matches_guard st st' :
  matches guard_re st st' ->
  exists g, is_guard g /\ rest st = g ++ rest st' /\
            pos st' = pos st + length g /\ groups st' = groups st.
Proof.
  unfold guard_re; simpl. intros H. invert_matches. simpl.
  match goal with
  | |- context [ ?a ++ "("%char :: ?b ++ "1"%char :: ?c ++ ")"%char :: ?d ++ ";"%char :: ?e ++ _ ] =>
      exists ($"while" ++ a ++ $"(" ++ b ++ $"1" ++ c ++ $")" ++ d ++ $";" ++ e ++ $"</x>//");
      split; [exists a, b, c, d, e; repeat split; assumption|]
  end.
  split; [|split]; auto.
  - simpl. repeat (rewrite <- app_assoc; simpl). reflexivity.
  - repeat (rewrite length_app; simpl). lia.
Qed.

Lemma guard_matches g n s gs :
  is_guard g -> matches guard_re (MState n (g ++ s) gs) (MState (n + length g) s gs).
Proof.
  intros (w1 & w2 & w3 & w4 & w5 & H1 & H2 & H3 & H4 & H5 & ->).
  enough (exists m, matches guard_re
            (MState n (($"while" ++ w1 ++ $"(" ++ w2 ++ $"1" ++ w3 ++ $")" ++ w4 ++
                        $";" ++ w5 ++ $"</x>//") ++ s) gs) (MState m s gs) /\
          m = n + length ($"while" ++ w1 ++ $"(" ++ w2 ++ $"1" ++ w3 ++ $")" ++ w4 ++
                          $";" ++ w5 ++ $"</x>//")) as (m & H & <-) by exact H.
  unfold guard_re; simpl.
  repeat (rewrite <- app_assoc; simpl).
  repeat (rewrite length_app; simpl).
  eexists. split.
  - repeat first [ apply m_eps | apply m_lit | apply m_rep; eassumption | eapply m_cat ].
  - lia.
Qed.

(** ** Which match the lazy prefix picks *)

(** [rep_lazy] stops at the shortest prefix after which the continuation
    succeeds: the continuation failed at every shorter one. *)
Lemma rep_lazy_first {A} p (k : mstate -> option A) gs x : forall s n,
  rep_lazy p s n gs k = Some x ->
  exists w s', s = w ++ s' /\ forallb p w = true /\
    k (MState (n + length w) s' gs) = Some x /\
    forall w1 s1, s = w1 ++ s1 -> length w1 < length w ->
                  k (MState (n + length w1) s1 gs) = None.
Proof.
  induction s as [|c s IH]; intros n H; simpl in H; apply orelse_some in H.
  - destruct H as [H | [_ H]]; [|discriminate].
    exists [], []. rewrite Nat.add_0_r. repeat split; auto.
    simpl; intros; lia.
  - destruct H as [H | [H0 H]].
    + exists [], (c :: s). rewrite Nat.add_0_r. repeat split; auto.
      simpl; intros; lia.
    + destruct (p c) eqn:Hc; [|discriminate].
      apply IH in H. destruct H as (w & s' & -> & Hw & Hk & Hmin).
      exists (c :: w), s'. simpl. rewrite Hc, Hw.
      replace (n + S (length w)) with (S n + length w) by lia.
      repeat split; auto.
      intros [|c1 w1] s1 E L; simpl in *.
      * subst s1. rewrite Nat.add_0_r. exact H0.
      * injection E as -> E.
        replace (n + S (length w1)) with (S n + length w1) by lia.
        apply Hmin; auto; lia.
Qed.

Lemma match_hijack_start s :
  match_at _JSON_HIJACK_RE 0 s =
  rep_lazy dot s 0 [] (fun st1 => run guard_re st1 (@Some mstate)).
Proof. reflexivity. Qed.

(** The anchor [^] holds at position 0 only. *)
Lemma hijack_needs_start n s : match_at _JSON_HIJACK_RE (S n) s = None.
Proof. reflexivity. Qed.

(** A match of the whole pattern at the start: a one-line prefix, then the
    guard token, and no guard token begins before that one. *)
Lemma hijack_match s st :
  match_at _JSON_HIJACK_RE 0 s = Some st ->
  exists pre g, s = pre ++ g ++ rest st /\ one_line pre /\ is_guard g /\
    pos st = length pre + length g /\
    forall pre' g' post', s = pre' ++ g' ++ post' -> is_guard g' ->
                          length pre <= length pre'.
Proof.
  rewrite match_hijack_start. intros H.
  apply rep_lazy_first in H. destruct H as (pre & s' & -> & Hpre & Hk & Hmin).
  apply run_sound in Hk. destruct Hk as (st' & Hg & E). injection E as ->.
  apply matches_guard in Hg. simpl in Hg. destruct Hg as (g & Hg & -> & Hpos & _).
  exists pre, g. repeat split; auto.
  intros pre' g' post' E Hg'.
  destruct (le_lt_dec (length pre) (length pre')) as [L|L]; auto.
  specialize (Hmin pre' (g' ++ post') E L).
  exfalso. revert Hmin.
  apply run_complete with (st' := MState (0 + length pre' + length g') post' []).
  - apply guard_matches; auto.
  - discriminate.
Qed.

(** No match at the start: every guard token of [s] begins after a line
    feed. *)
Lemma hijack_no_match s :
  match_at _JSON_HIJACK_RE 0 s = None ->
  forall pre g post, s = pre ++ g ++ post -> is_guard g -> forallb dot pre = false.
Proof.
  rewrite match_hijack_start. intros H pre g post -> Hg.
  destruct (forallb dot pre) eqn:Hpre; auto.
  exfalso. revert H.
  apply rep_lazy_complete with (w := pre) (s := g ++ post); auto.
  apply run_complete with (st' := MState (0 + length pre + length g) post []).
  - apply guard_matches; auto.
  - discriminate.
Qed.

(** ** [re.sub] with this pattern *)

Lemma sub_from_skip r : forall w s n,
  sub_from r n (length w) (w ++ s) = sub_from r (n + length w) 0 s.
Proof.
  induction w as [|c w IH]; intros s n; simpl.
  - rewrite Nat.add_0_r. reflexivity.
  - rewrite IH. f_equal. lia.
Qed.

(** Past the start nothing matches, so the text is copied. *)
Lemma sub_hijack_copy : forall s n, sub_from _JSON_HIJACK_RE (S n) 0 s = s.
Proof.
  induction s as [|c s IH]; intros n; simpl; auto.
  rewrite IH. reflexivity.
Qed.

(** The transform, in one step: what follows the match at the start, or the
    text itself when there is none. *)
Lemma strip_unfold s :
  _strip_json_hijack s =
  match match_at _JSON_HIJACK_RE 0 s with
  | Some st => rest st
  | None => s
  end.
Proof.
  unfold _strip_json_hijack, re_sub_empty.
  destruct (match_at _JSON_HIJACK_RE 0 s) as [st|] eqn:E.
  - destruct (hijack_match _ _ E) as (pre & g & Hs & _ & Hg & Hpos & _).
    apply is_guard_length in Hg.
    destruct s as [|c s].
    { destruct pre, g; simpl in *; try discriminate; lia. }
    cbn [sub_from]. rewrite E. rewrite Nat.sub_0_r.
    destruct (pos st) as [|len] eqn:Ep; [lia|].
    rewrite app_assoc in Hs.
    destruct (pre ++ g) as [|c' w] eqn:Ew.
    { apply (f_equal (@length _)) in Ew. rewrite length_app in Ew. simpl in Ew. lia. }
    simpl in Hs. injection Hs as -> ->.
    assert (len = length w) as ->.
    { apply (f_equal (@length _)) in Ew. rewrite length_app in Ew. simpl in Ew. lia. }
    rewrite sub_from_skip. simpl. apply sub_hijack_copy.
  - destruct s as [|c s]; auto.
    cbn [sub_from]. rewrite E. rewrite sub_hijack_copy. reflexivity.
Qed.

(** ** The guard token, decided by the matcher *)

Lemma guard_at_complete n g post :
  is_guard g -> match_at guard_re n (g ++ post) <> None.
Proof.
  intros Hg. unfold match_at.
  apply run_complete with (st' := MState (n + length g) post []).
  - apply guard_matches; auto.
  - discriminate.
Qed.

Lemma search_from_none r : forall s n,
  search_from r n s = None ->
  forall pre s', s = pre ++ s' -> match_at r (n + length pre) s' = None.
Proof.
  induction s as [|c s IH]; intros n H pre s' E; simpl in H.
  - destruct pre; [|discriminate]. simpl in E. subst s'. rewrite Nat.add_0_r.
    destruct (match_at r n []); auto; discriminate.
  - destruct (match_at r n (c :: s)) eqn:E0; [discriminate|].
    destruct pre as [|c' pre]; simpl in E.
    + subst s'. rewrite Nat.add_0_r. auto.
    + injection E as -> E. simpl.
      replace (n + S (length pre)) with (S n + length pre) by lia.
      eapply IH; eauto.
Qed.

Lemma has_guard_false s : has_guard s = false -> ~ guard_occurs s.
Proof.
  unfold has_guard, re_search. intros H (pre & g & post & E & Hg).
  destruct (search_from guard_re 0 s) eqn:Es; [discriminate|].
  eapply search_from_none in Es; [|exact E].
  revert Es. apply guard_at_complete; auto.
Qed.

Lemma guard_within_false : forall n s,
  guard_within n s = false ->
  forall pre g post, s = pre ++ g ++ post -> is_guard g -> n <= length pre.
Proof.
  induction n as [|n IH]; intros s H pre g post E Hg; [lia|].
  simpl in H. apply orb_false_elim in H. destruct H as [H0 H].
  destruct pre as [|c pre]; simpl in E.
  - exfalso. subst s. destruct (match_at guard_re 0 (g ++ post)) eqn:Em; [discriminate|].
    revert Em. apply guard_at_complete; auto.
  - subst s. simpl. apply le_n_S. eapply IH; eauto.
Qed.

Lemma forallb_dot_false s : forallb dot s = false <-> In newline s.
Proof.
  induction s as [|c s IH]; simpl.
  - split; [discriminate | tauto].
  - rewrite andb_false_iff, IH. unfold dot, code, newline.
    rewrite negb_false_iff, Nat.eqb_eq.
    split; intros [H | H]; auto; left.
    + rewrite <- H. symmetry. apply ascii_nat_embedding.
    + subst c. reflexivity.
Qed.

(** A run of one class, closed by a character outside the class, is
    determined by the text it begins. *)
Lemma class_run_unique (p : ascii -> bool) : forall w1 w2 c1 c2 (r1 r2 : text),
  forallb p w1 = true -> forallb p w2 = true ->
  p c1 = false -> p c2 = false ->
  w1 ++ c1 :: r1 = w2 ++ c2 :: r2 -> w1 = w2 /\ c1 :: r1 = c2 :: r2.
Proof.
  induction w1 as [|a w1 IH]; intros [|b w2] c1 c2 r1 r2 H1 H2 N1 N2 E; simpl in *.
  - auto.
  - injection E as -> E. apply andb_prop in H2. destruct H2 as [H2 _]. congruence.
  - injection E as -> E. apply andb_prop in H1. destruct H1 as [H1 _]. congruence.
  - injection E as -> E.
    apply andb_prop in H1. destruct H1 as [_ H1].
    apply andb_prop in H2. destruct H2 as [_ H2].
    destruct (IH _ _ _ _ _ H1 H2 N1 N2 E) as [-> ->]. auto.
Qed.

Lemma space_run_unique w1 w2 c1 c2 (r1 r2 : text) :
  forallb space w1 = true -> forallb space w2 = true ->
  space c1 = false -> space c2 = false ->
  w1 ++ c1 :: r1 = w2 ++ c2 :: r2 -> w1 = w2 /\ r1 = r2.
Proof.
  intros H1 H2 N1 N2 E.
  destruct (class_run_unique space _ _ _ _ _ _ H1 H2 N1 N2 E) as [-> E'].
  injection E' as _ ->. auto.
Qed.

(** Where a guard token begins decides where it ends. *)
Lemma guard_unique g1 g2 s1 s2 :
  is_guard g1 -> is_guard g2 -> g1 ++ s1 = g2 ++ s2 -> g1 = g2 /\ s1 = s2.
Proof.
  intros (a1 & a2 & a3 & a4 & a5 & A1 & A2 & A3 & A4 & A5 & ->).
  intros (b1 & b2 & b3 & b4 & b5 & B1 & B2 & B3 & B4 & B5 & ->).
  repeat (rewrite <- app_assoc; simpl). intros E.
  injection E as E.
  apply space_run_unique in E; auto. destruct E as [-> E].
  apply space_run_unique in E; auto. destruct E as [-> E].
  apply space_run_unique in E; auto. destruct E as [-> E].
  apply space_run_unique in E; auto. destruct E as [-> E].
  apply space_run_unique in E; auto. destruct E as [-> E].
  injection E as E. subst. auto.
Qed.

(** ** The anti-hijack transform *)

(** C4.  The transform maps the text [while (1)     ;    </x>//{"a":1}] to
    [{"a":1}], and it returns unchanged every text in which the guard token
    does not occur. *)
Theorem strip_json_hijack_example_and_noop :
  _strip_json_hijack ($"while (1)     ;    </x>//{" ++ dq :: $"a" ++ dq :: $":1}")
  = $"{" ++ dq :: $"a" ++ dq :: $":1}"
  /\ forall data, ~ guard_occurs data -> _strip_json_hijack data = data.
Proof.
  split.
  - vm_compute. reflexivity.
  - intros data Hno. rewrite strip_unfold.
    destruct (match_at _JSON_HIJACK_RE 0 data) as [st|] eqn:E; auto.
    exfalso. apply Hno.
    destruct (hijack_match _ _ E) as (pre & g & Hs & _ & Hg & _).
    exists pre, g, (rest st). auto.
Qed.

Lemma strip_json_hijack_noop_witness :
  ~ guard_occurs $"while(1); </y>//{}"
  /\ _strip_json_hijack $"while(1); </y>//{}" = $"while(1); </y>//{}".
Proof.
  assert (Hno : ~ guard_occurs $"while(1); </y>//{}")
    by (apply has_guard_false; vm_compute; reflexivity).
  split; [exact Hno|].
  exact (proj2 strip_json_hijack_example_and_noop _ Hno).
Defined.

(** C9.  The output of the transform is a suffix of its input.  What is
    deleted is a prefix that ends with the first guard token, when that
    token begins on the first line: everything after the token is kept as it
    is.  When every guard token of the input begins after a line feed, the
    transform is the identity. *)
Theorem strip_json_hijack_deletes_prefix_to_first_guard :
  (forall data, exists prefix, data = prefix ++ _strip_json_hijack data)
  /\ (forall pre g post,
        is_guard g -> one_line pre ->
        (forall pre' g' post',
            pre ++ g ++ post = pre' ++ g' ++ post' -> is_guard g' ->
            length pre <= length pre') ->
        _strip_json_hijack (pre ++ g ++ post) = post)
  /\ (forall data,
        (forall pre g post, data = pre ++ g ++ post -> is_guard g -> In newline pre) ->
        _strip_json_hijack data = data).
Proof.
  split; [|split].
  - intros data. rewrite strip_unfold.
    destruct (match_at _JSON_HIJACK_RE 0 data) as [st|] eqn:E.
    + destruct (hijack_match _ _ E) as (pre & g & Hs & _).
      exists (pre ++ g). rewrite <- app_assoc. exact Hs.
    + exists []. reflexivity.
  - intros pre g post Hg Hpre Hfirst. rewrite strip_unfold.
    destruct (match_at _JSON_HIJACK_RE 0 (pre ++ g ++ post)) as [st|] eqn:E.
    + destruct (hijack_match _ _ E) as (pre1 & g1 & Hs & _ & Hg1 & _ & Hmin).
      assert (length pre = length pre1) as L.
      { apply Nat.le_antisymm; [eapply Hfirst | eapply Hmin]; eauto. }
      assert (pre = pre1 /\ g ++ post = g1 ++ rest st) as [-> Et].
      { clear - Hs L. revert pre1 Hs L.
        induction pre as [|c pre IH]; intros [|c1 pre1] Hs L; simpl in *;
          try discriminate; auto.
        injection Hs as -> Hs. injection L as L.
        destruct (IH _ Hs L) as [-> ->]. auto. }
      destruct (guard_unique _ _ _ _ Hg Hg1 Et) as [_ ->]. reflexivity.
    + exfalso.
      pose proof (hijack_no_match _ E _ _ _ eq_refl Hg) as Hn.
      unfold one_line in Hpre. congruence.
  - intros data Hall. rewrite strip_unfold.
    destruct (match_at _JSON_HIJACK_RE 0 data) as [st|] eqn:E; auto.
    exfalso.
    destruct (hijack_match _ _ E) as (pre & g & Hs & Hpre & Hg & _).
    apply (Hall _ _ _ Hs) in Hg. apply forallb_dot_false in Hg.
    unfold one_line in Hpre. congruence.
Qed.

Lemma strip_json_hijack_first_guard_witness :
  _strip_json_hijack ($"ab" ++ $"while(1);</x>//" ++ $"while(1);</x>//[]") = $"while(1);</x>//[]"
  /\ _strip_json_hijack ($"ab" ++ [newline] ++ $"while(1);</x>//[]")
     = $"ab" ++ [newline] ++ $"while(1);</x>//[]".
Proof.
  destruct strip_json_hijack_deletes_prefix_to_first_guard as (_ & Hfirst & Hid).
  split.
  - apply Hfirst.
    + exists [], [], [], [], []. repeat split; reflexivity.
    + reflexivity.
    + apply (guard_within_false 2). vm_compute. reflexivity.
  - apply Hid. intros pre g post E Hg.
    apply forallb_dot_false.
    eapply hijack_no_match; [| exact E | exact Hg].
    vm_compute. reflexivity.
Defined.

(** ** Text and letter case *)

Lemma text_eqb_eq : forall a b, text_eqb a b = true <-> a = b.
Proof.
  induction a as [|x a IH]; intros [|y b]; simpl; split; intros E;
    try discriminate; auto.
  - apply andb_prop in E. destruct E as [E1 E2].
    apply chr_eqb_eq in E1. apply IH in E2. congruence.
  - injection E as -> ->. apply andb_true_intro. split.
    + apply chr_eqb_eq. reflexivity.
    + apply IH. reflexivity.
Qed.

Lemma text_eqb_refl a : text_eqb a a = true.
Proof. apply text_eqb_eq. reflexivity. Qed.

Lemma text_eqb_neq a b : a <> b -> text_eqb a b = false.
Proof.
  intros N. destruct (text_eqb a b) eqn:E; auto.
  apply text_eqb_eq in E. contradiction.
Qed.

Lemma starts_with_app needle rest : starts_with needle (needle ++ rest) = true.
Proof.
  induction needle as [|c needle IH]; simpl; auto.
  unfold chr_eqb. rewrite Ascii.eqb_refl. auto.
Qed.

Lemma starts_with_prefix : forall needle hay,
  starts_with needle hay = true -> exists post, hay = needle ++ post.
Proof.
  induction needle as [|c needle IH]; intros hay E; simpl in *.
  - exists hay. reflexivity.
  - destruct hay as [|d hay]; [discriminate|].
    apply andb_prop in E. destruct E as [E1 E2].
    apply chr_eqb_eq in E1. subst d.
    destruct (IH _ E2) as (post & ->). exists post. reflexivity.
Qed.

(** [needle in hay] is true exactly when [needle] occurs in [hay]. *)
Lemma contains_occurs needle hay : contains needle hay = true <-> occurs needle hay.
Proof.
  split.
  - induction hay as [|c hay IH]; simpl; intros E.
    + rewrite orb_false_r in E. apply starts_with_prefix in E.
      destruct E as (post & E). exists [], post. exact E.
    + apply orb_prop in E. destruct E as [E | E].
      * apply starts_with_prefix in E. destruct E as (post & E). exists [], post. exact E.
      * destruct (IH E) as (pre & post & ->). exists (c :: pre), post. reflexivity.
  - intros (pre & post & ->). induction pre as [|c pre IH]; simpl.
    + pose proof (starts_with_app needle post) as E.
      destruct (needle ++ post); simpl; rewrite E; reflexivity.
    + rewrite IH. apply orb_true_r.
Qed.

Lemma lower_app a b : lower (a ++ b) = lower a ++ lower b.
Proof. apply map_app. Qed.

(** ** The polling loop *)

Section Poller.

Context `{Host}.

Variables (video_id export_id : text) (title thumbnail : option text)
          (width height : option Z).

Local Abbreviation turn := (poll_once video_id export_id title thumbnail width height).

Lemma parsed_some r j : parsed r = Some j -> exists body, r = Some body.
Proof. destruct r; simpl; [eauto | discriminate]. Qed.

(** One cycle on a response that parses: the delay and the fetch are
    logged in that order, the response is consumed, and the answer depends
    on the response alone. *)
Lemma turn_parsed attempt w r rs j :
  json_responses w = r :: rs -> parsed r = Some j ->
  turn attempt w =
  (let w' := World (webpage_response w) rs (trace w ++ cycle video_id export_id attempt) in
   match status_of j with
   | Some s =>
       if text_eqb s $"COMPLETE" then
         match py_or (traverse_obj j url_path_1 url_or_none)
                     (traverse_obj j url_path_2 url_or_none) with
         | Some ((_ :: _) as u) =>
             (Return (Some (Info video_id
                (py_or (traverse_obj j [K $"export"; K $"output"; K $"title"] str) title)
                u $"mp4" thumbnail width height)), w')
         | _ => (Raise ProtocolError_no_url, w')
         end
       else if text_eqb s $"FAILED" then (Raise RemoteJobError, w')
       else (Return None, w')
   | None => (Return None, w')
   end).
Proof.
  intros Hr Hp. destruct (parsed_some _ _ Hp) as (body & ->). simpl in Hp.
  unfold poll_once, bind, _sleep, _download_json, log, next_response.
  cbn [json_responses webpage_response trace]. rewrite Hr, Hp.
  cbn [tl]. rewrite <- app_assoc. cbn [app].
  fold (status_of j). unfold cycle, _POLLING_INTERVAL.
  destruct (status_of j) as [s|]; [|reflexivity].
  destruct (text_eqb s $"COMPLETE").
  - fold url_path_1 url_path_2.
    destruct (py_or _ _) as [[|c u]|]; reflexivity.
  - destruct (text_eqb s $"FAILED"); reflexivity.
Qed.

Lemma turn_pending attempt w r rs :
  json_responses w = r :: rs -> pending r ->
  turn attempt w =
  (Return None, World (webpage_response w) rs (trace w ++ cycle video_id export_id attempt)).
Proof.
  intros Hr (j & Hp & Hc & Hf). rewrite (turn_parsed attempt w r rs j Hr Hp).
  destruct (status_of j) as [s|] eqn:Es; [|reflexivity].
  destruct (text_eqb s $"COMPLETE") eqn:Ec.
  { apply text_eqb_eq in Ec. subst s. exfalso. apply Hc. reflexivity. }
  destruct (text_eqb s $"FAILED") eqn:Ef.
  { apply text_eqb_eq in Ef. subst s. exfalso. apply Hf. reflexivity. }
  reflexivity.
Qed.

(** The loop passes over a run of pending responses, one cycle each. *)
Lemma loop_pending after : forall ps a n w rest,
  json_responses w = ps ++ rest -> Forall pending ps -> length ps <= n ->
  for_in (seq a n) turn after w =
  for_in (seq (a + length ps) (n - length ps)) turn after
    (World (webpage_response w) rest
           (trace w ++ flat_map (cycle video_id export_id) (seq a (length ps)))).
Proof.
  induction ps as [|r ps IH]; intros a n w rest Hr Hp Hn; simpl in *.
  - rewrite Nat.add_0_r, Nat.sub_0_r, app_nil_r. destruct w; simpl in *. subst. reflexivity.
  - inversion Hp as [|? ? Hr0 Hps]; subst.
    destruct n as [|n]; [lia|]. cbn [seq for_in].
    unfold bind at 1. rewrite (turn_pending a w r (ps ++ rest) Hr Hr0).
    rewrite (IH (S a) n _ rest); cbn [json_responses webpage_response trace]; auto; [|lia].
    rewrite <- app_assoc. cbn [app Nat.sub].
    replace (S a + length ps) with (a + S (length ps)) by lia.
    reflexivity.
Qed.

(** The code's "first path or second path" is the two-step lookup. *)
Lemma resolve_url j :
  match py_or (traverse_obj j url_path_1 url_or_none)
              (traverse_obj j url_path_2 url_or_none) with
  | Some ((_ :: _) as u) => Some u
  | _ => None
  end =
  match url_at j url_path_1 with
  | Some u => Some u
  | None => url_at j url_path_2
  end.
Proof.
  unfold url_at, py_or, truthy.
  destruct (traverse_obj j url_path_1 url_or_none) as [[|c u]|];
    destruct (traverse_obj j url_path_2 url_or_none) as [[|c' u']|]; reflexivity.
Qed.

Lemma result_title_or j :
  py_or (traverse_obj j [K $"export"; K $"output"; K $"title"] str) title = result_title j title.
Proof.
  unfold result_title, py_or, truthy.
  destruct (traverse_obj j _ str) as [[|c t]|]; reflexivity.
Qed.

Lemma url_at_nonempty j path u : url_at j path = Some u -> u <> [].
Proof.
  unfold url_at. destruct (traverse_obj j path url_or_none) as [[|c v]|];
    intros E; try discriminate. injection E as <-. discriminate.
Qed.

(** The end of the loop on a response with status [COMPLETE]. *)
Lemma turn_complete attempt w r rs j :
  json_responses w = r :: rs -> parsed r = Some j -> status_of j = Some $"COMPLETE" ->
  turn attempt w =
  (let w' := World (webpage_response w) rs (trace w ++ cycle video_id export_id attempt) in
   match url_at j url_path_1 with
   | Some u =>
       (Return (Some (Info video_id (result_title j title) u $"mp4" thumbnail width height)), w')
   | None =>
       match url_at j url_path_2 with
       | Some u =>
           (Return (Some (Info video_id (result_title j title) u $"mp4" thumbnail width height)),
            w')
       | None => (Raise ProtocolError_no_url, w')
       end
   end).
Proof.
  intros Hr Hp Hs. rewrite (turn_parsed attempt w r rs j Hr Hp), Hs.
  rewrite text_eqb_refl, result_title_or. cbv zeta.
  pose proof (resolve_url j) as E.
  destruct (py_or _ _) as [[|c u]|];
    destruct (url_at j url_path_1) as [u1|]; try discriminate;
    try (destruct (url_at j url_path_2) as [u2|]; try discriminate);
    try reflexivity; injection E as <-; reflexivity.
Qed.

Lemma turn_failed attempt w r rs j :
  json_responses w = r :: rs -> parsed r = Some j -> status_of j = Some $"FAILED" ->
  turn attempt w =
  (Raise RemoteJobError,
   World (webpage_response w) rs (trace w ++ cycle video_id export_id attempt)).
Proof.
  intros Hr Hp Hs. rewrite (turn_parsed attempt w r rs j Hr Hp), Hs. reflexivity.
Qed.

Lemma cycles_succ n :
  cycles video_id export_id (S n) = cycles video_id export_id n ++ cycle video_id export_id (S n).
Proof.
  unfold cycles. rewrite seq_S, flat_map_app. cbn [flat_map Nat.add].
  rewrite app_nil_r. reflexivity.
Qed.

(** The loop after [length ps] pending responses, seen from the next one. *)
Lemma poll_export_after_pending w ps r rest :
  json_responses w = ps ++ r :: rest -> Forall pending ps -> length ps < 30 ->
  poll_export video_id export_id title thumbnail width height w =
  let w1 := World (webpage_response w) (r :: rest)
                  (trace w ++ cycles video_id export_id (length ps)) in
  match turn (S (length ps)) w1 with
  | (Return (Some v), w') => (Return v, w')
  | (Return None, w') =>
      for_in (seq (S (S (length ps))) (29 - length ps)) turn (raise TimeoutError) w'
  | (Raise e, w') => (Raise e, w')
  end.
Proof.
  intros Hr Hp Hn. unfold poll_export, _POLLING_MAX_ATTEMPTS.
  rewrite (loop_pending _ ps 1 30 w (r :: rest) Hr Hp); [|lia].
  destruct (30 - length ps) as [|m] eqn:Em; [lia|].
  cbn [seq for_in Nat.add]. unfold bind at 1. fold (cycles video_id export_id (length ps)).
  cbv zeta.
  destruct (turn (S (length ps)) _) as [[[v|]|e] w']; try reflexivity.
  replace (29 - length ps) with m by lia. reflexivity.
Qed.

(** C2.  When none of the first 30 poll responses has status [COMPLETE] or
    [FAILED], the poller runs exactly 30 cycles, each a delay followed by a
    fetch, and then fails with [TimeoutError]: 30 poll requests are issued
    and the responses after the 30th are left unread. *)
Theorem poll_budget_exhausted w ps rest :
  json_responses w = ps ++ rest -> length ps = 30 -> Forall pending ps ->
  poll_export video_id export_id title thumbnail width height w =
    (Raise TimeoutError,
     World (webpage_response w) rest (trace w ++ cycles video_id export_id 30))
  /\ length (filter is_poll_request (cycles video_id export_id 30)) = 30.
Proof.
  intros Hr Hl Hp. split; [|reflexivity].
  unfold poll_export, _POLLING_MAX_ATTEMPTS.
  rewrite (loop_pending _ ps 1 30 w rest Hr Hp); [|lia].
  rewrite Hl. reflexivity.
Qed.


(** C5.  When the first poll response has status [FAILED], the poller fails
    with [RemoteJobError] after exactly one cycle; the later responses are
    left unread. *)
Theorem poll_failed_first w r rest j :
  json_responses w = r :: rest -> parsed r = Some j -> status_of j = Some $"FAILED" ->
  poll_export video_id export_id title thumbnail width height w =
    (Raise RemoteJobError,
     World (webpage_response w) rest (trace w ++ cycle video_id export_id 1)).
Proof.
  intros Hr Hp Hs.
  rewrite (poll_export_after_pending w [] r rest Hr (Forall_nil _)); [|simpl; lia].
  cbv zeta. cbn [length].
  rewrite (turn_failed 1 (World _ (r :: rest) _) r rest j eq_refl Hp Hs).
  cbn [webpage_response trace cycles]. unfold cycles. cbn [seq flat_map].
  rewrite app_nil_r. reflexivity.
Qed.

(** C6.  On a response with status [COMPLETE], reached after any number of
    pending ones within the budget, the URL is the well-formed one at
    [export.output.exportBlobs[0].url] and, only when there is none, the
    well-formed one at [export.exportBlobs[0].url]; when neither path has
    one the poller fails with [ProtocolError].  In each case polling stops
    with this response, and a result that is returned has a non-empty
    URL. *)
Theorem poll_complete_resolves_url w ps r rest j :
  json_responses w = ps ++ r :: rest -> Forall pending ps -> length ps < 30 ->
  parsed r = Some j -> status_of j = Some $"COMPLETE" ->
  let w' := World (webpage_response w) rest
                  (trace w ++ cycles video_id export_id (S (length ps))) in
  let result u :=
    Return (Info video_id (result_title j title) u $"mp4" thumbnail width height) in
  poll_export video_id export_id title thumbnail width height w =
    match url_at j url_path_1 with
    | Some u => (result u, w')
    | None =>
        match url_at j url_path_2 with
        | Some u => (result u, w')
        | None => (Raise ProtocolError_no_url, w')
        end
    end
  /\ forall v, fst (poll_export video_id export_id title thumbnail width height w) = Return v ->
               info_url v <> [].
Proof.
  intros Hr Hp Hn Hj Hs w' result.
  assert (E : poll_export video_id export_id title thumbnail width height w =
    match url_at j url_path_1 with
    | Some u => (result u, w')
    | None =>
        match url_at j url_path_2 with
        | Some u => (result u, w')
        | None => (Raise ProtocolError_no_url, w')
        end
    end).
  { rewrite (poll_export_after_pending w ps r rest Hr Hp Hn). cbv zeta.
    rewrite (turn_complete (S (length ps)) (World _ (r :: rest) _) r rest j eq_refl Hj Hs).
    cbn [webpage_response trace]. rewrite <- app_assoc, <- cycles_succ.
    fold w'. unfold result.
    destruct (url_at j url_path_1); [reflexivity|].
    destruct (url_at j url_path_2); reflexivity. }
  split; [exact E|].
  intros v. rewrite E.
  destruct (url_at j url_path_1) as [u1|] eqn:E1.
  - simpl. intros Ev. injection Ev as <-. simpl. eapply url_at_nonempty; eauto.
  - destruct (url_at j url_path_2) as [u2|] eqn:E2.
    + simpl. intros Ev. injection Ev as <-. simpl. eapply url_at_nonempty; eauto.
    + simpl. discriminate.
Qed.

End Poller.

(** ** The extractor up to the export request *)

Section Extractor.

Context `{Host}.

(** A denied page ends the extraction after the page fetch: nothing else is
    requested and no response is consumed. *)
Lemma real_extract_denied url w video_id token page :
  _match_valid_url url = Some (video_id, token) ->
  webpage_response w = Some page -> access_denied page = true ->
  _real_extract url w =
    (Raise AccessDeniedError,
     World (webpage_response w) (json_responses w) (trace w ++ [Download_webpage url video_id])).
Proof.
  intros Hu Hw Hd. unfold _real_extract. rewrite Hu.
  unfold bind, _download_webpage. rewrite Hw, Hd.
  unfold raise, log. rewrite Hw. reflexivity.
Qed.

Lemma permission_any_case_denied page m :
  any_case_of $"permission" m -> occurs m page -> access_denied page = true.
Proof.
  intros Hm (pre & post & ->). unfold access_denied.
  apply orb_true_intro. left. apply contains_occurs.
  exists (lower pre), (lower post). rewrite !lower_app, Hm. reflexivity.
Qed.

Lemma request_access_denied page :
  occurs $"Request access" page -> access_denied page = true.
Proof.
  intros Ho. unfold access_denied. apply orb_true_intro. right.
  apply contains_occurs. exact Ho.
Qed.

(** C1, as the code has it.  A page that contains [Request access] written
    exactly so, or [permission] in any letter case, makes the extractor
    fail with [AccessDeniedError], an expected failure; the page fetch is
    the only request made. *)
Theorem access_markers_deny url w video_id token page :
  _match_valid_url url = Some (video_id, token) ->
  webpage_response w = Some page ->
  occurs $"Request access" page \/
    (exists m, any_case_of $"permission" m /\ occurs m page) ->
  _real_extract url w =
    (Raise (ExtractorError access_denied_message true),
     World (webpage_response w) (json_responses w) (trace w ++ [Download_webpage url video_id])).
Proof.
  intros Hu Hw Hm. apply (real_extract_denied url w video_id token page Hu Hw).
  destruct Hm as [Hm | (m & Hm & Ho)].
  - apply request_access_denied; auto.
  - eapply permission_any_case_denied; eauto.
Qed.

(** C10.  A page that contains [permission] anywhere, in any letter case,
    makes the extractor fail with the access-denied failure; no export is
    initiated, whatever the rest of the page and the server's responses
    are. *)
Theorem permission_anywhere_denies url w video_id token pre m post :
  _match_valid_url url = Some (video_id, token) ->
  webpage_response w = Some (pre ++ m ++ post) ->
  any_case_of $"permission" m ->
  _real_extract url w =
    (Raise AccessDeniedError,
     World (webpage_response w) (json_responses w) (trace w ++ [Download_webpage url video_id]))
  /\ existsb is_export_request (trace (snd (_real_extract url w))) =
     existsb is_export_request (trace w).
Proof.
  intros Hu Hw Hm.
  assert (E : _real_extract url w =
    (Raise AccessDeniedError,
     World (webpage_response w) (json_responses w)
           (trace w ++ [Download_webpage url video_id]))).
  { apply (real_extract_denied url w video_id token _ Hu Hw).
    apply (permission_any_case_denied _ m Hm). exists pre, post. reflexivity. }
  split; [exact E|].
  rewrite E. simpl. rewrite existsb_app. simpl. rewrite !orb_false_r. reflexivity.
Qed.

(** C8.  When the response to the export request parses but has no string
    at [export.exportIdentifier], the extraction fails with
    [ProtocolError]: the export request has been made once, and no poll
    request and no delay follow it. *)
Theorem missing_export_identifier url w video_id token page r rest j :
  _match_valid_url url = Some (video_id, token) ->
  webpage_response w = Some page -> access_denied page = false ->
  json_responses w = r :: rest -> parsed r = Some j ->
  (forall s, traverse j [K $"export"; K $"exportIdentifier"] <> Some (JStr s)) ->
  _real_extract url w =
    (Raise ProtocolError_no_identifier,
     World (webpage_response w) rest
       (trace w ++
        [Download_webpage url video_id;
         initiate_event video_id token (fst (dimensions page)) (snd (dimensions page))])).
Proof.
  intros Hu Hw Hd Hr Hp Hno. unfold _real_extract. rewrite Hu.
  destruct (parsed_some _ _ Hp) as (body & ->). simpl in Hp.
  unfold bind at 1. unfold _download_webpage. rewrite Hw, Hd.
  destruct (dimensions page) as [wd ht]. cbn [fst snd].
  unfold bind, _download_json, log, next_response.
  cbn [json_responses webpage_response trace]. rewrite Hr, Hp. cbn [tl].
  rewrite <- app_assoc. cbn [app].
  assert (E : traverse_obj j [K $"export"; K $"exportIdentifier"] str = None).
  { unfold traverse_obj.
    destruct (traverse j [K $"export"; K $"exportIdentifier"]) as [[]|] eqn:E;
      try reflexivity.
    exfalso. eapply Hno. reflexivity. }
  rewrite E. unfold raise. rewrite Hw. reflexivity.
Qed.

(** With an export identifier in hand the extractor is the poller, started
    after the page fetch and the export request. *)
Lemma real_extract_polls url w video_id token page r rest j export_id :
  _match_valid_url url = Some (video_id, token) ->
  webpage_response w = Some page -> access_denied page = false ->
  json_responses w = r :: rest -> parsed r = Some j ->
  traverse_obj j [K $"export"; K $"exportIdentifier"] str = Some export_id ->
  export_id <> [] ->
  _real_extract url w =
    poll_export video_id export_id
      (py_or (_og_search_title page) (_html_extract_title page)) (_og_search_thumbnail page)
      (fst (dimensions page)) (snd (dimensions page))
      (World (webpage_response w) rest
         (trace w ++
          [Download_webpage url video_id;
           initiate_event video_id token (fst (dimensions page)) (snd (dimensions page))])).
Proof.
  intros Hu Hw Hd Hr Hp He Hne. unfold _real_extract. rewrite Hu.
  destruct (parsed_some _ _ Hp) as (body & ->). simpl in Hp.
  unfold bind at 1. unfold _download_webpage. rewrite Hw, Hd.
  destruct (dimensions page) as [wd ht]. cbn [fst snd].
  unfold bind, _download_json, log, next_response.
  cbn [json_responses webpage_response trace]. rewrite Hr, Hp. cbn [tl].
  rewrite <- app_assoc. cbn [app]. rewrite He.
  destruct export_id as [|c e]; [contradiction|]. rewrite Hw. reflexivity.
Qed.

End Extractor.

(** ** The theorems at concrete inputs *)

Lemma poll_budget_exhausted_witness :
  poll_export (H := demo_host) demo_id $"E1" None None (Some 1920%Z) (Some 1080%Z)
    world_never_done =
    (Raise TimeoutError,
     World None [guarded complete_text] ([] ++ cycles demo_id $"E1" 30))
  /\ length (filter is_poll_request (cycles demo_id $"E1" 30)) = 30.
Proof.
  apply (@poll_budget_exhausted demo_host demo_id $"E1" None None (Some 1920%Z) (Some 1080%Z)
           world_never_done (repeat (guarded (status_text $"PENDING")) 30)
           [guarded complete_text]).
  - reflexivity.
  - reflexivity.
  - apply Forall_forall. intros r Hr. apply repeat_spec in Hr. subst r.
    exists (status_json $"PENDING").
    split; [vm_compute; reflexivity|]. split; vm_compute; discriminate.
Defined.


Lemma poll_failed_first_witness :
  poll_export (H := demo_host) demo_id $"E1" None None (Some 1920%Z) (Some 1080%Z)
    world_failed_first =
    (Raise RemoteJobError, World None [guarded complete_text] ([] ++ cycle demo_id $"E1" 1)).
Proof.
  apply (@poll_failed_first demo_host demo_id $"E1" None None (Some 1920%Z) (Some 1080%Z)
           world_failed_first (guarded (status_text $"FAILED")) [guarded complete_text]
           (status_json $"FAILED"));
    vm_compute; reflexivity.
Defined.

Lemma poll_complete_resolves_url_witness :
  poll_export (H := demo_host) demo_id $"E1" None None (Some 1920%Z) (Some 1080%Z)
    world_complete_no_url =
    (Raise ProtocolError_no_url, World None [guarded complete_text] (cycles demo_id $"E1" 2)).
Proof.
  refine (proj1 (@poll_complete_resolves_url demo_host demo_id $"E1" None None
           (Some 1920%Z) (Some 1080%Z) world_complete_no_url
           [guarded (status_text $"PENDING")] (guarded (status_text $"COMPLETE"))
           [guarded complete_text] (status_json $"COMPLETE") _ _ _ _ _)).
  - reflexivity.
  - repeat constructor. exists (status_json $"PENDING").
    split; [vm_compute; reflexivity|]. split; vm_compute; discriminate.
  - simpl. lia.
  - vm_compute. reflexivity.
  - vm_compute. reflexivity.
Defined.

Lemma missing_export_identifier_witness :
  _real_extract (H := demo_host) demo_url world_no_identifier =
    (Raise ProtocolError_no_identifier,
     World (Some $"<html><title>Design</title></html>") [guarded complete_text]
       [Download_webpage demo_url demo_id;
        initiate_event demo_id demo_token (Some 1920%Z) (Some 1080%Z)]).
Proof.
  apply (@missing_export_identifier demo_host demo_url world_no_identifier demo_id demo_token
           $"<html><title>Design</title></html>" (guarded $"{}") [guarded complete_text]
           (JObj [])).
  - vm_compute. reflexivity.
  - reflexivity.
  - vm_compute. reflexivity.
  - reflexivity.
  - vm_compute. reflexivity.
  - intros s. vm_compute. discriminate.
Defined.

Lemma access_markers_deny_witness :
  _real_extract (H := demo_host) demo_url world_request_access =
    (Raise (ExtractorError access_denied_message true),
     World (Some $"<a>Request access</a>") [guarded identifier_text]
       [Download_webpage demo_url demo_id]).
Proof.
  apply (@access_markers_deny demo_host demo_url world_request_access demo_id demo_token
           $"<a>Request access</a>").
  - vm_compute. reflexivity.
  - reflexivity.
  - left. exists $"<a>", $"</a>". reflexivity.
Defined.

Lemma permission_anywhere_denies_witness :
  _real_extract (H := demo_host) demo_url world_permission_title =
    (Raise AccessDeniedError,
     World (Some $"<title>PERMISSION slip for the school trip</title>")
       [guarded identifier_text; guarded complete_text]
       [Download_webpage demo_url demo_id])
  /\ existsb is_export_request
       (trace (snd (_real_extract (H := demo_host) demo_url world_permission_title))) = false.
Proof.
  apply (@permission_anywhere_denies demo_host demo_url world_permission_title
           demo_id demo_token $"<title>" $"PERMISSION" $" slip for the school trip</title>").
  - vm_compute. reflexivity.
  - reflexivity.
  - vm_compute. reflexivity.
Defined.

(** C1 as stated fails: a page with [request access] in small letters, and
    without the word [permission], is not refused.  The export is requested
    and the extraction succeeds. *)
Lemma request_access_small_letters_not_denied :
  (exists m, any_case_of $"Request access" m
             /\ occurs m $"<p>How to request access to a shared folder</p>")
  /\ webpage_response world_request_access_small
     = Some $"<p>How to request access to a shared folder</p>"
  /\ fst (_real_extract (H := demo_host) demo_url world_request_access_small) =
     Return (Info demo_id (Some $"Untitled design")
               $"https://export-download.canva.com/v.mp4" $"mp4" None
               (Some 1920%Z) (Some 1080%Z))
  /\ existsb is_export_request
       (trace (snd (_real_extract (H := demo_host) demo_url world_request_access_small)))
     = true.
Proof.
  split; [|split; [|split]].
  - exists $"request access". split; [vm_compute; reflexivity|].
    exists $"<p>How to ", $" to a shared folder</p>". reflexivity.
  - reflexivity.
  - vm_compute. reflexivity.
  - vm_compute. reflexivity.
Qed.

(** ** The dimension pattern *)

Lemma firstn_read (w s : text) n : firstn (n + length w - n) (w ++ s) = w.
Proof.
  replace (n + length w - n) with (length w + 0) by lia.
  rewrite firstn_app_2. simpl. apply app_nil_r.
Qed.

(** A group records the text its body has read. *)
Lemma matches_grp_inv i r st st' :
  matches (Grp i r) st st' ->
  exists w st1, matches r st st1 /\ rest st = w ++ rest st1 /\
                pos st1 = pos st + length w /\
                st' = MState (pos st1) (rest st1) ((i, w) :: groups st1).
Proof.
  intros Hm. inversion Hm as [| | | | | | | | | |i' r' st0 st1 H1]; subst.
  destruct (matches_reads _ _ _ H1) as (w & Hw & Hp).
  exists w, st1. repeat split; auto.
  unfold set_group. rewrite Hw, Hp, firstn_read. reflexivity.
Qed.

(** [re.search] answers with the match at the leftmost position that has
    one. *)
Lemma search_from_some r : forall s n st,
  search_from r n s = Some st ->
  exists pre s', s = pre ++ s' /\ match_at r (n + length pre) s' = Some st /\
    forall pre1 s1, s = pre1 ++ s1 -> length pre1 < length pre ->
                    match_at r (n + length pre1) s1 = None.
Proof.
  induction s as [|c s IH]; intros n st H; simpl in H.
  - destruct (match_at r n []) eqn:E; [|discriminate]. injection H as ->.
    exists [], []. rewrite Nat.add_0_r. repeat split; auto. simpl; intros; lia.
  - destruct (match_at r n (c :: s)) eqn:E.
    + injection H as ->. exists [], (c :: s). rewrite Nat.add_0_r.
      repeat split; auto. simpl; intros; lia.
    + apply IH in H. destruct H as (pre & s' & -> & Hm & Hmin).
      exists (c :: pre), s'. simpl.
      replace (n + S (length pre)) with (S n + length pre) by lia.
      repeat split; auto.
      intros [|c1 pre1] s1 E1 L; simpl in *.
      * subst s1. rewrite Nat.add_0_r. exact E.
      * injection E1 as -> E1.
        replace (n + S (length pre1)) with (S n + length pre1) by lia.
        apply Hmin; auto. lia.
Qed.

Lemma space_not_digit c : space c = true -> digit c = false.
Proof.
  unfold space, digit. intros H.
  destruct (48 <=? code c) eqn:E1; [|reflexivity].
  destruct (code c <=? 57) eqn:E2; [|reflexivity].
  apply Nat.leb_le in E1, E2.
  repeat (apply orb_prop in H; destruct H as [H | H]);
    try (apply andb_prop in H; destruct H as [H1 H2]; apply Nat.leb_le in H1, H2; lia);
    apply Nat.eqb_eq in H; lia.
Qed.

Lemma number_matches n m s gs :
  is_number n -> matches number_re (MState m (n ++ s) gs) (MState (m + length n) s gs).
Proof.
  intros (ip & frac & -> & Hne & Hip & Hfrac).
  enough (exists q, matches number_re (MState m ((ip ++ frac) ++ s) gs) (MState q s gs) /\
                    q = m + length (ip ++ frac)) as (q & Hq & <-) by exact Hq.
  destruct ip as [|c ip]; [contradiction|]. simpl in Hip.
  apply andb_prop in Hip. destruct Hip as [Hc Hip].
  unfold number_re, Plus. rewrite <- app_assoc, length_app. simpl.
  destruct Hfrac as [-> | (fp & -> & Hfne & Hfp)].
  - eexists. split.
    + eapply m_cat; [eapply m_cat; [apply m_cls; exact Hc | apply m_rep; exact Hip]|].
      apply m_opt_out.
    + simpl. lia.
  - destruct fp as [|d fp]; [contradiction|]. simpl in Hfp.
    apply andb_prop in Hfp. destruct Hfp as [Hd Hfp].
    eexists. split.
    + eapply m_cat; [eapply m_cat; [apply m_cls; exact Hc | apply m_rep; exact Hip]|].
      apply m_opt_in. simpl.
      eapply m_cat; [apply m_lit|].
      eapply m_cat; [apply m_cls; exact Hd | apply m_rep; exact Hfp].
    + simpl. lia.
Qed.

Lemma matches_number st st' :
  matches number_re st st' ->
  exists n, is_number n /\ rest st = n ++ rest st' /\ groups st' = groups st.
Proof.
  unfold number_re, Plus. intros Hm.
  inversion Hm as [| | | |r1 r2 st0 st1 st2 H1 H2| | | | | |]; subst. clear Hm.
  invert_matches.
  inversion H2 as [| | | | | |  |r st0 st1 H3|r st0| |]; subst; clear H2.
  - invert_matches. simpl.
    match goal with
    | Hd : digit ?c = true, Hw : forallb digit ?w = true,
      He : digit ?d = true, Hv : forallb digit ?v = true |- _ =>
        exists (c :: w ++ "."%char :: d :: v); split; [|split; [|reflexivity]];
        [ exists (c :: w), ("."%char :: d :: v); repeat split;
          [ discriminate | simpl; rewrite Hd, Hw; reflexivity
          | right; exists (d :: v); repeat split;
            [discriminate | simpl; rewrite He, Hv; reflexivity] ]
        | simpl; rewrite <- app_assoc; reflexivity ]
    end.
  - simpl.
    match goal with
    | Hd : digit ?c = true, Hw : forallb digit ?w = true |- _ =>
        exists (c :: w); split; [|split; [|reflexivity]];
        [ exists (c :: w), []; repeat split;
          [ rewrite app_nil_r; reflexivity | discriminate | simpl; rewrite Hd, Hw; reflexivity
          | left; reflexivity ]
        | reflexivity ]
    end.
Qed.

Lemma dimensions_matches frag n1 n2 m post gs :
  is_dimensions frag n1 n2 ->
  exists st', matches dimensions_re (MState m (frag ++ post) gs) st'.
Proof.
  intros (w & Hw & H1 & H2 & ->).
  unfold dimensions_re, dimensions_fragment, quoted, ws. cbn [cat].
  repeat (rewrite <- app_assoc; cbn [app String.list_ascii_of_string]).
  eexists.
  repeat first
    [ apply m_lit
    | apply m_rep; apply Hw
    | eapply m_grp; apply number_matches; assumption
    | eapply m_cat
    | progress cbn [set_group pos rest groups] ].
Qed.

Lemma matches_dimensions st st' :
  matches dimensions_re st st' ->
  exists frag n1 n2, is_dimensions frag n1 n2 /\ rest st = frag ++ rest st' /\
                     groups st' = (2, n2) :: (1, n1) :: groups st.
Proof.
  unfold dimensions_re, ws. cbn [cat]. intros H.
  repeat match goal with
  | H : matches (Cat _ _) _ _ |- _ => inversion H; subst; clear H
  | H : matches (Lit _) _ _ |- _ => inversion H; subst; clear H
  | H : matches (Rep _ _) _ _ |- _ => inversion H; subst; clear H
  | H : matches (Grp _ number_re) _ ?s |- _ =>
      apply matches_grp_inv in H;
      let w := fresh "n" in let st1 := fresh "st" in
      let Hm := fresh "Hm" in let Hr := fresh "Hr" in let E := fresh "E" in
      destruct H as (w & st1 & Hm & Hr & _ & E);
      apply matches_number in Hm;
      let x := fresh "x" in let Hx := fresh "Hx" in let Hg := fresh "Hg" in
      let Hr2 := fresh "Hr" in
      destruct Hm as (x & Hx & Hr2 & Hg);
      destruct st1; cbn [pos rest groups] in *; subst
  end.
  repeat match goal with
  | E : MState _ _ _ = MState _ _ _ |- _ => injection E as ? ? ?; subst
  | E : ?x ++ ?r = ?y ++ ?r |- _ => apply app_inv_tail in E; subst
  end.
  do 3 eexists. split; [|split]. 3: reflexivity.
  2: { match goal with
       | |- _ :: _ :: _ :: ?a0 ++ _ :: ?a1 ++ _ :: ?a2 ++ _ :: _ :: _ :: ?a3 ++ _ :: ?a4 ++
            ?m1 ++ ?a5 ++ _ :: ?a6 ++ _ :: _ :: _ :: ?a7 ++ _ :: ?a8 ++
            ?m2 ++ ?a9 ++ _ :: ?a10 ++ _ :: _ :: _ :: ?a11 ++ _ :: ?a12 ++
            _ :: _ :: _ :: ?a13 ++ _ :: _ = ?f ++ _ =>
           unify f (dimensions_fragment
                      (fun i => nth i [a0; a1; a2; a3; a4; a5; a6; a7; a8; a9; a10; a11; a12; a13]
                                    []) m1 m2)
       end.
       unfold dimensions_fragment, quoted. cbn [nth].
       repeat (rewrite <- app_assoc; cbn [app String.list_ascii_of_string]).
       reflexivity. }
  eexists. split; [|split; [eassumption | split; [eassumption | reflexivity]]].
  intros i. do 14 (destruct i as [|i]; [assumption|]). destruct i; reflexivity.
Qed.

Lemma run_unique (p : ascii -> bool) w1 w2 (t1 t2 : text) :
  forallb p w1 = true -> forallb p w2 = true ->
  starts_outside p t1 -> starts_outside p t2 ->
  w1 ++ t1 = w2 ++ t2 -> w1 = w2 /\ t1 = t2.
Proof.
  intros H1 H2 O1 O2 E.
  destruct t1 as [|c1 r1]; [contradiction|]. destruct t2 as [|c2 r2]; [contradiction|].
  simpl in O1, O2. apply (class_run_unique p _ _ _ _ _ _ H1 H2 O1 O2 E).
Qed.

Lemma comma_follows_head t :
  comma_follows t -> starts_outside digit t /\ starts_outside (fun c => chr_eqb c ".") t.
Proof.
  intros (a & r & Ha & ->). destruct a as [|x a]; simpl.
  - split; reflexivity.
  - apply andb_prop in Ha. destruct Ha as [Hx _]. split.
    + apply space_not_digit; auto.
    + destruct (chr_eqb x ".") eqn:E; auto.
      apply chr_eqb_eq in E. subst x. discriminate.
Qed.

Lemma number_starts_outside_space n t : is_number n -> starts_outside space (n ++ t).
Proof.
  intros (ip & frac & -> & Hne & Hip & _).
  destruct ip as [|c ip]; [contradiction|]. simpl in *.
  apply andb_prop in Hip. destruct Hip as [Hc _].
  destruct (space c) eqn:E; auto. apply space_not_digit in E. congruence.
Qed.

(** A number of the fragment is determined by the text it begins. *)
Lemma number_unique n m t t' :
  is_number n -> is_number m -> comma_follows t -> comma_follows t' ->
  n ++ t = m ++ t' -> n = m /\ t = t'.
Proof.
  intros (ip & frac & -> & _ & Hip & Hfrac) (ip' & frac' & -> & _ & Hip' & Hfrac') Ht Ht' E.
  destruct (comma_follows_head _ Ht) as [Hd Hdot].
  destruct (comma_follows_head _ Ht') as [Hd' Hdot'].
  rewrite <- !app_assoc in E.
  assert (O : starts_outside digit (frac ++ t)).
  { destruct Hfrac as [-> | (fp & -> & _)]; [exact Hd | reflexivity]. }
  assert (O' : starts_outside digit (frac' ++ t')).
  { destruct Hfrac' as [-> | (fp & -> & _)]; [exact Hd' | reflexivity]. }
  destruct (run_unique digit _ _ _ _ Hip Hip' O O' E) as [-> E1].
  destruct Hfrac as [-> | (fp & -> & _ & Hfp)];
    destruct Hfrac' as [-> | (fp' & -> & _ & Hfp')]; simpl in E1.
  - subst. auto.
  - subst t. simpl in Hdot. discriminate.
  - subst t'. simpl in Hdot'. discriminate.
  - injection E1 as E1.
    destruct (run_unique digit _ _ _ _ Hfp Hfp' Hd Hd' E1) as [-> ->]. auto.
Qed.

(** The two numbers of a fragment are determined by the text it begins. *)
Lemma dimensions_unique f f' n1 n2 m1 m2 p p' :
  is_dimensions f n1 n2 -> is_dimensions f' m1 m2 ->
  f ++ p = f' ++ p' -> n1 = m1 /\ n2 = m2.
Proof.
  intros (w & Hw & N1 & N2 & ->) (w' & Hw' & M1 & M2 & ->).
  unfold dimensions_fragment, quoted.
  repeat (rewrite <- app_assoc; cbn [app String.list_ascii_of_string]).
  intros E.
  assert (Hs : forall t, starts_outside space t ->
            forall i t', starts_outside space t' -> w i ++ t = w' i ++ t' -> t = t').
  { intros t O i t' O' Et. apply (run_unique space _ _ _ _ (Hw i) (Hw' i) O O' Et). }
  injection E as E. apply Hs in E; try reflexivity. injection E as E.
  apply Hs in E; try reflexivity. injection E as E.
  apply Hs in E; try reflexivity. injection E as E.
  apply Hs in E; try reflexivity. injection E as E.
  apply Hs in E; try (apply number_starts_outside_space; assumption).
  apply number_unique in E; auto; try (eexists _, _; split; [|reflexivity]; auto).
  destruct E as [-> E]. split; [reflexivity|].
  apply Hs in E; try reflexivity. injection E as E.
  apply Hs in E; try reflexivity. injection E as E.
  apply Hs in E; try reflexivity. injection E as E.
  apply Hs in E; try (apply number_starts_outside_space; assumption).
  apply number_unique in E; auto; try (eexists _, _; split; [|reflexivity]; auto).
  destruct E as [-> _]. reflexivity.
Qed.

Lemma match_at_dimensions n s st :
  match_at dimensions_re n s = Some st ->
  exists frag n1 n2, is_dimensions frag n1 n2 /\ s = frag ++ rest st /\
                     group 1 st = Some n1 /\ group 2 st = Some n2.
Proof.
  unfold match_at. intros Hm. apply run_sound in Hm.
  destruct Hm as (st' & Hm & E). injection E as ->.
  apply matches_dimensions in Hm. simpl in Hm.
  destruct Hm as (frag & n1 & n2 & Hf & Hr & Hg).
  exists frag, n1, n2. unfold group. rewrite Hg. auto.
Qed.

Lemma is_dimensions_match_at frag n1 n2 n post :
  is_dimensions frag n1 n2 -> match_at dimensions_re n (frag ++ post) <> None.
Proof.
  intros Hf. unfold match_at.
  destruct (dimensions_matches frag n1 n2 n post [] Hf) as (st' & Hm).
  apply (run_complete _ _ st' _ Hm). discriminate.
Qed.

Lemma dimensions_search_none page :
  re_search dimensions_re page = None -> ~ dimensions_occur page.
Proof.
  unfold re_search. intros Hs (pre & frag & post & n1 & n2 & E & Hf).
  eapply search_from_none in Hs; [|exact E].
  revert Hs. eapply is_dimensions_match_at; eauto.
Qed.

Lemma dimensions_within_false : forall n s,
  dimensions_within n s = false ->
  forall pre frag post n1 n2,
    s = pre ++ frag ++ post -> is_dimensions frag n1 n2 -> n <= length pre.
Proof.
  induction n as [|n IH]; intros s H pre frag post n1 n2 E Hf; [lia|].
  simpl in H. apply orb_false_elim in H. destruct H as [H0 H].
  destruct pre as [|c pre]; simpl in E.
  - exfalso. subst s.
    destruct (match_at dimensions_re 0 (frag ++ post)) eqn:Em; [discriminate|].
    revert Em. eapply is_dimensions_match_at; eauto.
  - subst s. simpl. apply le_n_S. eapply IH; eauto.
Qed.

Lemma app_same_length {A} : forall (a b c d : list A),
  a ++ b = c ++ d -> length a = length c -> a = c /\ b = d.
Proof.
  induction a as [|x a IH]; intros b [|y c] d E L; simpl in *; try discriminate; auto.
  injection E as -> E. injection L as L. destruct (IH _ _ _ E L) as [-> ->]. auto.
Qed.

(** The default when the pattern is absent; the two numbers of the first
    fragment, through [float_or_none] and [int_or_none], when it is
    present; 1280 and 720 for the example. *)
Lemma dimensions_of_page :
  (forall page, ~ dimensions_occur page -> dimensions page = (Some 1920%Z, Some 1080%Z))
  /\ (forall pre frag post n1 n2,
        is_dimensions frag n1 n2 ->
        (forall pre' frag' post' m1 m2,
            pre ++ frag ++ post = pre' ++ frag' ++ post' -> is_dimensions frag' m1 m2 ->
            length pre <= length pre') ->
        dimensions (pre ++ frag ++ post) =
          (int_or_none (float_or_none (Some n1)), int_or_none (float_or_none (Some n2))))
  /\ (forall pre post,
        (forall pre' frag' post' m1 m2,
            pre ++ dimensions_example ++ post = pre' ++ frag' ++ post' ->
            is_dimensions frag' m1 m2 -> length pre <= length pre') ->
        dimensions (pre ++ dimensions_example ++ post) = (Some 1280%Z, Some 720%Z)).
Proof.
  assert (Hb : forall pre frag post n1 n2,
        is_dimensions frag n1 n2 ->
        (forall pre' frag' post' m1 m2,
            pre ++ frag ++ post = pre' ++ frag' ++ post' -> is_dimensions frag' m1 m2 ->
            length pre <= length pre') ->
        dimensions (pre ++ frag ++ post) =
          (int_or_none (float_or_none (Some n1)), int_or_none (float_or_none (Some n2)))).
  { intros pre frag post n1 n2 Hf Hfirst.
    unfold dimensions, _search_regex, re_search.
    destruct (search_from dimensions_re 0 (pre ++ frag ++ post)) as [st|] eqn:Es.
    - apply search_from_some in Es. destruct Es as (pre1 & s1 & E1 & Hm & Hmin).
      simpl in Hm.
      destruct (match_at_dimensions _ _ _ Hm) as (frag1 & m1 & m2 & Hf1 & -> & G1 & G2).
      assert (L : length pre = length pre1).
      { apply Nat.le_antisymm.
        - eapply Hfirst; eauto.
        - destruct (le_lt_dec (length pre1) (length pre)) as [L|L]; auto.
          exfalso. specialize (Hmin pre (frag ++ post) eq_refl L).
          revert Hmin. eapply is_dimensions_match_at; eauto. }
      destruct (app_same_length _ _ _ _ E1 L) as [_ E2].
      destruct (dimensions_unique _ _ _ _ _ _ _ _ Hf Hf1 E2) as [-> ->].
      rewrite G1, G2. reflexivity.
    - exfalso. eapply search_from_none in Es; [|reflexivity].
      revert Es. eapply is_dimensions_match_at; eauto. }
  split; [|split].
  - intros page Hno. unfold dimensions, _search_regex, re_search.
    destruct (search_from dimensions_re 0 page) as [st|] eqn:Es; auto.
    exfalso. apply Hno.
    apply search_from_some in Es. destruct Es as (pre & s' & -> & Hm & _).
    destruct (match_at_dimensions _ _ _ Hm) as (frag & n1 & n2 & Hf & -> & _).
    exists pre, frag, (rest st), n1, n2. auto.
  - exact Hb.
  - intros pre post Hfirst.
    rewrite (Hb pre dimensions_example post $"1280.0" $"720.0"); auto.
    exists (fun _ => []). repeat split.
    + exists $"1280", $".0". repeat split; try discriminate.
      right. exists $"0". repeat split. discriminate.
    + exists $"720", $".0". repeat split; try discriminate.
      right. exists $"0". repeat split. discriminate.
Qed.

(** * Further properties *)

(** ** The anti-hijack transform on guarded responses *)

(** X1.  A response that begins with the guard token loses exactly that
    token: the payload comes back unchanged, whatever it contains, further
    guard tokens and line feeds included. *)
Theorem strip_json_hijack_guarded_payload g payload :
  is_guard g -> _strip_json_hijack (g ++ payload) = payload.
Proof.
  intros Hg. rewrite strip_unfold.
  destruct (match_at _JSON_HIJACK_RE 0 (g ++ payload)) as [st|] eqn:E.
  - destruct (hijack_match _ _ E) as (pre & g1 & Hs & _ & Hg1 & _ & Hmin).
    assert (pre = []) as ->.
    { specialize (Hmin [] g payload eq_refl Hg). destruct pre; simpl in *; [auto | lia]. }
    simpl in Hs.
    destruct (guard_unique _ _ _ _ Hg Hg1 Hs) as [_ ->]. reflexivity.
  - pose proof (hijack_no_match _ E [] g payload eq_refl Hg) as Hn. discriminate.
Qed.

Lemma strip_json_hijack_guarded_payload_witness :
  _strip_json_hijack (($"while" ++ [newline] ++ $"( 1 ) ;  </x>//")
                      ++ $"while(1);</x>//[]")
  = $"while(1);</x>//[]".
Proof.
  apply strip_json_hijack_guarded_payload.
  exists [newline], $" ", $" ", $" ", $"  ". repeat split; reflexivity.
Defined.

(** X2.  The transform leaves a text unchanged exactly when no guard token
    begins on its first line, that is, when every guard token of the text
    begins after a line feed. *)
Theorem strip_json_hijack_identity_iff data :
  _strip_json_hijack data = data <->
  (forall pre g post, data = pre ++ g ++ post -> is_guard g -> In newline pre).
Proof.
  rewrite strip_unfold. split.
  - destruct (match_at _JSON_HIJACK_RE 0 data) as [st|] eqn:E.
    + intros Hid. exfalso.
      destruct (hijack_match _ _ E) as (pre & g & Hs & _ & Hg & _).
      apply is_guard_length in Hg.
      apply (f_equal (@length _)) in Hs. rewrite Hid, !length_app in Hs. lia.
    + intros _ pre g post Hs Hg. apply forallb_dot_false.
      eapply hijack_no_match; eauto.
  - intros Hall.
    destruct (match_at _JSON_HIJACK_RE 0 data) as [st|] eqn:E; auto.
    exfalso.
    destruct (hijack_match _ _ E) as (pre & g & Hs & Hpre & Hg & _).
    apply (Hall _ _ _ Hs) in Hg. apply forallb_dot_false in Hg.
    unfold one_line in Hpre. congruence.
Qed.

(** ** The URL pattern *)

Lemma valid_url_matches https www video_id token watch tail :
  is_segment video_id -> is_segment token ->
  re_match _VALID_URL (canva_url https www video_id token watch tail) <> None.
Proof.
  intros [Hi1 Hi2] [Ht1 Ht2].
  destruct video_id as [|c i]; [contradiction|]. destruct token as [|d t]; [contradiction|].
  simpl in Hi2, Ht2.
  apply andb_prop in Hi2. destruct Hi2 as [Hc Hi]. apply andb_prop in Ht2. destruct Ht2 as [Hd Ht].
  unfold re_match, match_at.
  assert (exists st', matches _VALID_URL
            (MState 0 (canva_url https www (c :: i) (d :: t) watch tail) []) st') as (st' & Hm).
  { unfold _VALID_URL, Plus, canva_url. cbn [cat lit String.list_ascii_of_string].
    destruct https, www, watch;
      repeat (rewrite <- app_assoc; cbn [app String.list_ascii_of_string]);
      eexists; build_matches. }
  apply (run_complete _ _ st' _ Hm). discriminate.
Qed.

Lemma valid_url_sound url st :
  re_match _VALID_URL url = Some st ->
  exists https www watch tail video_id token,
    url = canva_url https www video_id token watch tail /\
    is_segment video_id /\ is_segment token /\
    group 1 st = Some video_id /\ group 2 st = Some token.
Proof.
  unfold re_match, match_at. intros Hm. apply run_sound in Hm.
  destruct Hm as (st' & Hm & E). injection E as ->.
  unfold _VALID_URL, Plus in Hm. cbn [cat lit String.list_ascii_of_string] in Hm.
  repeat match goal with
  | H : matches (Cat _ _) _ _ |- _ => inversion H; subst; clear H
  | H : matches (Lit _) _ _ |- _ => inversion H; subst; clear H
  | H : matches (Cls _) _ _ |- _ => inversion H; subst; clear H
  | H : matches (Rep _ _) _ _ |- _ => inversion H; subst; clear H
  | H : matches Eps _ _ |- _ => inversion H; subst; clear H
  | H : matches (Opt _) _ _ |- _ => inversion H; subst; clear H
  | H : matches (Alt _ _) _ _ |- _ => inversion H; subst; clear H
  | H : matches (Grp _ _) _ _ |- _ =>
      apply matches_grp_inv in H;
      let w := fresh "seg" in let st1 := fresh "st" in
      let Hm := fresh "Hm" in let Hr := fresh "Hr" in let E := fresh "E" in
      destruct H as (w & st1 & Hm & Hr & _ & E);
      destruct st1; cbn [pos rest groups] in *
  | E : MState _ _ _ = MState _ _ _ |- _ => injection E as ? ? ?; subst
  | E : ?c :: ?x ++ ?r = ?y ++ ?r |- _ => apply (app_inv_tail r (c :: x) y) in E; subst
  end.
  all: match goal with
       | |- context [ ?c0 :: ?w0 ++ "/"%char :: (?c :: ?w) ++ "/"%char :: _ ] =>
           let finish b1 b2 b3 :=
             (exists b1, b2, b3; eexists; exists (c0 :: w0), (c :: w);
              split; [unfold canva_url; simpl;
                      repeat (rewrite <- app_assoc; simpl); reflexivity|];
              repeat split; try discriminate; try reflexivity;
              simpl; apply andb_true_intro; split; assumption) in
           first [ finish true true true | finish true true false
                 | finish true false true | finish true false false
                 | finish false true true | finish false true false
                 | finish false false true | finish false false false ]
       end.
Qed.

(** The two segments of such a URL are determined by the text. *)
Lemma canva_url_unique b1 b2 b3 tail i t c1 c2 c3 tail' i' t' :
  is_segment i -> is_segment t -> is_segment i' -> is_segment t' ->
  canva_url b1 b2 i t b3 tail = canva_url c1 c2 i' t' c3 tail' -> i = i' /\ t = t'.
Proof.
  intros [_ Hi] [_ Ht] [_ Hi'] [_ Ht'].
  unfold canva_url.
  destruct b1, b2, c1, c2; cbn [app String.list_ascii_of_string];
    intros E; try discriminate E; injection E as E;
    (apply (run_unique not_slash _ _ _ _ Hi Hi') in E; [|reflexivity|reflexivity]);
    destruct E as [-> E]; injection E as E;
    (apply (run_unique not_slash _ _ _ _ Ht Ht') in E; [|reflexivity|reflexivity]);
    destruct E as [-> _]; auto.
Qed.

(** X3.  A URL of the expected shape, with [http] or [https], with or
    without [www.], ending in [watch] or [view] and followed by anything,
    yields its two path segments after [/design/] as the id and the
    token. *)
Theorem match_valid_url_segments https www video_id token watch tail :
  is_segment video_id -> is_segment token ->
  _match_valid_url (canva_url https www video_id token watch tail) = Some (video_id, token).
Proof.
  intros Hi Ht. unfold _match_valid_url.
  pose proof (valid_url_matches https www video_id token watch tail Hi Ht) as Hm.
  destruct (re_match _VALID_URL (canva_url https www video_id token watch tail))
    as [st|] eqn:E; [|contradiction].
  destruct (valid_url_sound _ _ E)
    as (c1 & c2 & c3 & tail' & i' & t' & Hu & Hi' & Ht' & G1 & G2).
  destruct (canva_url_unique _ _ _ _ _ _ _ _ _ _ _ _ Hi Ht Hi' Ht' Hu) as [-> ->].
  rewrite G1, G2. reflexivity.
Qed.

Lemma match_valid_url_segments_witness :
  _match_valid_url (canva_url false false $"DAHCoEX6EYE" $"o2rkSSBzqNZFqNCYPUJlQw" false
                      $"?utm_source=share")
  = Some ($"DAHCoEX6EYE", $"o2rkSSBzqNZFqNCYPUJlQw").
Proof.
  apply match_valid_url_segments; split; try discriminate; reflexivity.
Defined.

(** X4.  Whatever [_match_valid_url] accepts has that shape: the id and
    the token it returns are the two segments after [/design/], neither is
    empty and neither contains a slash. *)
Theorem match_valid_url_shape url video_id token :
  _match_valid_url url = Some (video_id, token) ->
  exists https www watch tail,
    url = canva_url https www video_id token watch tail /\
    is_segment video_id /\ is_segment token.
Proof.
  unfold _match_valid_url.
  destruct (re_match _VALID_URL url) as [st|] eqn:E; [|discriminate].
  destruct (valid_url_sound _ _ E)
    as (c1 & c2 & c3 & tail & i & t & Hu & Hi & Ht & G1 & G2).
  rewrite G1, G2. intros H. injection H as <- <-.
  exists c1, c2, c3, tail. auto.
Qed.

Lemma match_valid_url_shape_witness :
  exists https www watch tail,
    demo_url = canva_url https www demo_id demo_token watch tail /\
    is_segment demo_id /\ is_segment demo_token.
Proof.
  apply match_valid_url_shape. vm_compute. reflexivity.
Defined.

(** ** Every run of the polling loop *)

Section PollerRuns.

Context `{Host}.

Variables (video_id export_id : text) (title thumbnail : option text)
          (width height : option Z).

Local Abbreviation turn := (poll_once video_id export_id title thumbnail width height).
Local Abbreviation poll := (poll_export video_id export_id title thumbnail width height).
Local Abbreviation after := (after_cycles video_id export_id).

(** A cycle whose response is missing or does not parse raises inside the
    host, after the delay and the request. *)
Lemma turn_broken attempt w :
  broken (json_responses w) ->
  turn attempt w =
  (Raise DownloadError,
   World (webpage_response w) (tl (json_responses w))
         (trace w ++ cycle video_id export_id attempt)).
Proof.
  intros Hb. unfold poll_once, bind, _sleep, _download_json, log, next_response.
  cbn [json_responses webpage_response trace]. rewrite <- app_assoc. cbn [app].
  destruct Hb as [-> | (r & rest & -> & Hp)]; [reflexivity|].
  destruct r as [body|]; [|reflexivity]. simpl in Hp. rewrite Hp. reflexivity.
Qed.

Lemma response_cases r :
  pending r \/ parsed r = None \/
  (exists j, parsed r = Some j /\ status_of j = Some $"COMPLETE") \/
  (exists j, parsed r = Some j /\ status_of j = Some $"FAILED").
Proof.
  destruct (parsed r) as [j|] eqn:Hp; [|auto].
  destruct (status_of j) as [s|] eqn:Hs.
  - destruct (text_eqb s $"COMPLETE") eqn:Ec.
    { apply text_eqb_eq in Ec. subst s. right. right. left. eauto. }
    destruct (text_eqb s $"FAILED") eqn:Ef.
    { apply text_eqb_eq in Ef. subst s. right. right. right. eauto. }
    left. exists j. rewrite Hs. repeat split; auto; intros E; injection E as ->;
      rewrite text_eqb_refl in *; discriminate.
  - left. exists j. rewrite Hs. repeat split; auto; discriminate.
Qed.

(** The responses begin with a run of pending ones that either fills the
    budget [n] or is cut short by a response that ends the loop. *)
Lemma split_pending : forall n l,
  exists ps tail, l = ps ++ tail /\ Forall pending ps /\
    (length ps = n \/
     (length ps < n /\
      (broken tail \/
       exists r rest j, tail = r :: rest /\ parsed r = Some j /\
         (status_of j = Some $"COMPLETE" \/ status_of j = Some $"FAILED")))).
Proof.
  induction n as [|n IH]; intros l.
  - exists [], l. repeat split; auto.
  - destruct l as [|r l].
    + exists [], []. repeat split; auto. right. split; [simpl; lia|]. left. left. reflexivity.
    + destruct (response_cases r) as [Hp | [Hn | [(j & Hj & Hs) | (j & Hj & Hs)]]].
      * destruct (IH l) as (ps & tail & -> & Hps & Hc).
        exists (r :: ps), tail. repeat split; auto. simpl.
        destruct Hc as [Hc | [Hc Ht]]; [left; lia | right; split; [lia | exact Ht]].
      * exists [], (r :: l). repeat split; auto. right. split; [simpl; lia|].
        left. right. eauto.
      * exists [], (r :: l). repeat split; auto. right. split; [simpl; lia|].
        right. exists r, l, j. auto.
      * exists [], (r :: l). repeat split; auto. right. split; [simpl; lia|].
        right. exists r, l, j. auto.
Qed.

Lemma poll_after_pending w ps tail :
  json_responses w = ps ++ tail -> Forall pending ps -> length ps < 30 ->
  poll w =
  match turn (S (length ps)) (after w (length ps) tail) with
  | (Return (Some v), w') => (Return v, w')
  | (Return None, w') =>
      for_in (seq (S (S (length ps))) (29 - length ps)) turn (raise TimeoutError) w'
  | (Raise e, w') => (Raise e, w')
  end.
Proof.
  intros Hr Hp Hn. unfold poll_export, _POLLING_MAX_ATTEMPTS.
  rewrite (loop_pending _ _ _ _ _ _ _ ps 1 30 w tail Hr Hp); [|lia].
  destruct (30 - length ps) as [|m] eqn:Em; [lia|].
  cbn [seq for_in Nat.add]. unfold bind at 1.
  fold (cycles video_id export_id (length ps)). fold (after w (length ps) tail).
  destruct (turn (S (length ps)) _) as [[[v|]|e] w']; try reflexivity.
  replace (29 - length ps) with m by lia. reflexivity.
Qed.

(** Every run of the poller is one of four: the budget is used up, the job
    failed, the job completed, or the host failed. *)
Lemma poll_cases w :
  (exists ps rest,
      json_responses w = ps ++ rest /\ length ps = 30 /\ Forall pending ps /\
      poll w = (Raise TimeoutError, after w 30 rest))
  \/ (exists ps r rest j,
      json_responses w = ps ++ r :: rest /\ length ps < 30 /\ Forall pending ps /\
      parsed r = Some j /\ status_of j = Some $"FAILED" /\
      poll w = (Raise RemoteJobError, after w (S (length ps)) rest))
  \/ (exists ps r rest j,
      json_responses w = ps ++ r :: rest /\ length ps < 30 /\ Forall pending ps /\
      parsed r = Some j /\ status_of j = Some $"COMPLETE" /\
      poll w = (complete_outcome video_id title thumbnail width height j,
                after w (S (length ps)) rest))
  \/ (exists ps tail,
      json_responses w = ps ++ tail /\ length ps < 30 /\ Forall pending ps /\
      broken tail /\
      poll w = (Raise DownloadError, after w (S (length ps)) (tl tail))).
Proof.
  destruct (split_pending 30 (json_responses w)) as (ps & tail & Hr & Hp & Hc).
  destruct Hc as [Hl | [Hl [Hb | (r & rest & j & -> & Hj & [Hs | Hs])]]].
  - left. exists ps, tail. repeat split; auto.
    unfold poll_export, _POLLING_MAX_ATTEMPTS.
    rewrite (loop_pending _ _ _ _ _ _ _ ps 1 30 w tail Hr Hp); [|lia].
    rewrite Hl. reflexivity.
  - right. right. right. exists ps, tail. repeat split; auto.
    rewrite (poll_after_pending w ps tail Hr Hp Hl).
    rewrite (turn_broken (S (length ps)) (after w (length ps) tail) Hb).
    unfold after_cycles. cbn [webpage_response trace json_responses].
    rewrite <- app_assoc, <- cycles_succ. reflexivity.
  - right. right. left. exists ps, r, rest, j. repeat split; auto.
    rewrite (poll_after_pending w ps (r :: rest) Hr Hp Hl).
    rewrite (turn_complete _ _ _ _ _ _ (S (length ps)) (after w (length ps) (r :: rest))
               r rest j eq_refl Hj Hs).
    unfold after_cycles, complete_outcome. cbn [webpage_response trace json_responses].
    rewrite <- app_assoc, <- cycles_succ.
    destruct (url_at j url_path_1); [reflexivity|].
    destruct (url_at j url_path_2); reflexivity.
  - right. left. exists ps, r, rest, j. repeat split; auto.
    rewrite (poll_after_pending w ps (r :: rest) Hr Hp Hl).
    rewrite (turn_failed _ _ _ _ _ _ (S (length ps)) (after w (length ps) (r :: rest))
               r rest j eq_refl Hj Hs).
    unfold after_cycles. cbn [webpage_response trace json_responses].
    rewrite <- app_assoc, <- cycles_succ. reflexivity.
Qed.

(** The poller stops after some number of cycles between 1 and 30, having
    read one response for each. *)
Lemma poll_stops w :
  exists k, 1 <= k <= 30 /\
    snd (poll w) = after w k (List.skipn k (json_responses w)).
Proof.
  destruct (poll_cases w)
    as [(ps & rest & Hr & Hl & _ & E) | [(ps & r & rest & j & Hr & Hl & _ & _ & _ & E)
       | [(ps & r & rest & j & Hr & Hl & _ & _ & _ & E) | (ps & tail & Hr & Hl & _ & _ & E)]]];
    rewrite E, Hr; cbn [snd].
  - exists 30. split; [lia|]. rewrite <- Hl. f_equal.
    clear. induction ps as [|x ps IH]; simpl; auto.
  - exists (S (length ps)). split; [lia|]. f_equal.
    clear. induction ps as [|x ps IH]; simpl; auto.
  - exists (S (length ps)). split; [lia|]. f_equal.
    clear. induction ps as [|x ps IH]; simpl; auto.
  - exists (S (length ps)). split; [lia|]. f_equal.
    clear. induction ps as [|x ps IH]; [destruct tail; reflexivity | exact IH].
Qed.

(** The failures of the poller are these four. *)
Lemma poll_raises w e :
  fst (poll w) = Raise e ->
  e = ProtocolError_no_url \/ e = RemoteJobError \/ e = TimeoutError \/ e = DownloadError.
Proof.
  destruct (poll_cases w)
    as [(ps & rest & _ & _ & _ & E) | [(ps & r & rest & j & _ & _ & _ & _ & _ & E)
       | [(ps & r & rest & j & _ & _ & _ & _ & _ & E) | (ps & tail & _ & _ & _ & _ & E)]]];
    rewrite E; cbn [fst]; try (intros Ho; injection Ho as <-; auto).
  unfold complete_outcome.
  destruct (url_at j url_path_1); [discriminate|].
  destruct (url_at j url_path_2); [discriminate|].
  intros Ho; injection Ho as <-; auto.
Qed.

End PollerRuns.

Lemma total_sleep_app a b : total_sleep (a ++ b) = total_sleep a + total_sleep b.
Proof.
  induction a as [|e a IH]; simpl; auto. destruct e; auto. rewrite IH. lia.
Qed.

Lemma cycles_counts video_id export_id k :
  length (filter is_poll_request (cycles video_id export_id k)) = k
  /\ length (filter (fun e => negb (is_poll_request e)) (cycles video_id export_id k)) = k
  /\ total_sleep (cycles video_id export_id k) = 3 * k.
Proof.
  induction k as [|k (IH1 & IH2 & IH3)]; [repeat split; reflexivity|].
  rewrite cycles_succ, !filter_app, !length_app, total_sleep_app, IH1, IH2, IH3.
  simpl. repeat split; lia.
Qed.

Section PollerProperties.

Context `{Host}.

Variables (video_id export_id : text) (title thumbnail : option text)
          (width height : option Z).

Local Abbreviation poll := (poll_export video_id export_id title thumbnail width height).
Local Abbreviation after := (after_cycles video_id export_id).

(** X5.  Whatever the server answers, the poller runs between 1 and 30
    cycles and then stops.  The calls it makes are exactly those cycles,
    so it issues as many poll requests as it sleeps, never more than 30,
    and sleeps 3 seconds for each; it reads one response per cycle and
    leaves the others. *)
Theorem poll_bounded w :
  exists k, 1 <= k <= 30 /\
    snd (poll w) = after w k (skipn k (json_responses w)) /\
    length (filter is_poll_request (cycles video_id export_id k)) = k /\
    total_sleep (cycles video_id export_id k) = 3 * k.
Proof.
  destruct (poll_stops video_id export_id title thumbnail width height w) as (k & Hk & E).
  exists k.
  destruct (cycles_counts video_id export_id k) as (C1 & _ & C3). auto.
Qed.

(** X6.  The poller ends with a result or with one of four failures: the
    job completed without a URL, the job failed, the budget ran out, or
    the host raised. *)
Theorem poll_outcomes w :
  (exists v, fst (poll w) = Return v)
  \/ fst (poll w) = Raise ProtocolError_no_url
  \/ fst (poll w) = Raise RemoteJobError
  \/ fst (poll w) = Raise TimeoutError
  \/ fst (poll w) = Raise DownloadError.
Proof.
  destruct (poll_cases video_id export_id title thumbnail width height w)
    as [(ps & rest & _ & _ & _ & E) | [(ps & r & rest & j & _ & _ & _ & _ & _ & E)
       | [(ps & r & rest & j & _ & _ & _ & _ & _ & E) | (ps & tail & _ & _ & _ & _ & E)]]];
    rewrite E; cbn [fst]; auto.
  unfold complete_outcome.
  destruct (url_at j url_path_1); [eauto|]. destruct (url_at j url_path_2); eauto.
Qed.


(** X8.  Each failure of the poller tells what happened.  [TimeoutError]:
    the first 30 responses were all pending.  [RemoteJobError]: after
    fewer than 30 pending responses one had status [FAILED].
    [ProtocolError]: after fewer than 30 pending responses one had status
    [COMPLETE] and no well-formed URL at either path.  A failure of the
    host: after fewer than 30 pending responses the next one was missing
    or did not parse. *)
Theorem poll_failure_causes w :
  (fst (poll w) = Raise TimeoutError ->
     exists ps rest, json_responses w = ps ++ rest /\ length ps = 30 /\ Forall pending ps)
  /\ (fst (poll w) = Raise RemoteJobError ->
     exists ps r rest j,
       json_responses w = ps ++ r :: rest /\ length ps < 30 /\ Forall pending ps /\
       parsed r = Some j /\ status_of j = Some $"FAILED")
  /\ (fst (poll w) = Raise ProtocolError_no_url ->
     exists ps r rest j,
       json_responses w = ps ++ r :: rest /\ length ps < 30 /\ Forall pending ps /\
       parsed r = Some j /\ status_of j = Some $"COMPLETE" /\
       url_at j url_path_1 = None /\ url_at j url_path_2 = None)
  /\ (fst (poll w) = Raise DownloadError ->
     exists ps tail,
       json_responses w = ps ++ tail /\ length ps < 30 /\ Forall pending ps /\ broken tail).
Proof.
  destruct (poll_cases video_id export_id title thumbnail width height w)
    as [(ps & rest & Hr & Hl & Hp & E) | [(ps & r & rest & j & Hr & Hl & Hp & Hj & Hs & E)
       | [(ps & r & rest & j & Hr & Hl & Hp & Hj & Hs & E) | (ps & tail & Hr & Hl & Hp & Hb & E)]]];
    rewrite E; cbn [fst]; repeat split; intros Ho; absurd_outcome.
  - exists ps, rest. auto.
  - exists ps, r, rest, j. auto.
  - unfold complete_outcome in Ho.
    destruct (url_at j url_path_1); [discriminate|].
    destruct (url_at j url_path_2); absurd_outcome.
  - unfold complete_outcome in Ho.
    destruct (url_at j url_path_1); [discriminate|].
    destruct (url_at j url_path_2); absurd_outcome.
  - unfold complete_outcome in Ho.
    destruct (url_at j url_path_1) eqn:E1; [discriminate|].
    destruct (url_at j url_path_2) eqn:E2; [discriminate|].
    exists ps, r, rest, j. repeat split; auto.
  - unfold complete_outcome in Ho.
    destruct (url_at j url_path_1); [discriminate|].
    destruct (url_at j url_path_2); absurd_outcome.
  - exists ps, tail. auto.
Qed.

(** X9.  A response with status [FAILED] that comes after any number of
    pending ones, within the budget, ends the polling with
    [RemoteJobError] at that cycle; the responses after it are left
    unread. *)
Theorem poll_failed_after_pending w ps r rest j :
  json_responses w = ps ++ r :: rest -> Forall pending ps -> length ps < 30 ->
  parsed r = Some j -> status_of j = Some $"FAILED" ->
  poll w = (Raise RemoteJobError, after w (S (length ps)) rest).
Proof.
  intros Hr Hp Hl Hj Hs.
  rewrite (poll_after_pending _ _ _ _ _ _ w ps (r :: rest) Hr Hp Hl).
  rewrite (turn_failed _ _ _ _ _ _ (S (length ps))
             (after_cycles video_id export_id w (length ps) (r :: rest))
             r rest j eq_refl Hj Hs).
  unfold after_cycles. cbn [webpage_response trace json_responses].
  rewrite <- app_assoc, <- cycles_succ. reflexivity.
Qed.

(** X10.  A poll that fails inside the host (no response, a failed request
    or a body that is not JSON) is not retried: after any number of pending
    responses within the budget, the failure ends the polling at that
    cycle, and the later responses are left unread. *)
Theorem poll_host_failure_not_retried w ps tail :
  json_responses w = ps ++ tail -> Forall pending ps -> length ps < 30 ->
  broken tail ->
  poll w = (Raise DownloadError, after w (S (length ps)) (tl tail)).
Proof.
  intros Hr Hp Hl Hb.
  rewrite (poll_after_pending _ _ _ _ _ _ w ps tail Hr Hp Hl).
  rewrite (turn_broken _ _ _ _ _ _ (S (length ps))
             (after_cycles video_id export_id w (length ps) tail) Hb).
  unfold after_cycles. cbn [webpage_response trace json_responses].
  rewrite <- app_assoc, <- cycles_succ. reflexivity.
Qed.

End PollerProperties.

(** ** Every run of the extractor *)

Section ExtractorRuns.

Context `{Host}.

(** The run after a page that is fetched and not refused: the export
    request, then the identifier decides. *)
Lemma real_extract_after_page url w video_id token page :
  _match_valid_url url = Some (video_id, token) ->
  webpage_response w = Some page -> access_denied page = false ->
  _real_extract url w =
    let w1 := World (webpage_response w) (tl (json_responses w))
                    (trace w ++ opening url video_id token page) in
    match json_responses w with
    | r :: _ =>
        match parsed r with
        | Some j =>
            match traverse_obj j [K $"export"; K $"exportIdentifier"] str with
            | Some ((_ :: _) as export_id) =>
                poll_export video_id export_id (page_title page) (_og_search_thumbnail page)
                  (fst (dimensions page)) (snd (dimensions page)) w1
            | _ => (Raise ProtocolError_no_identifier, w1)
            end
        | None => (Raise DownloadError, w1)
        end
    | [] => (Raise DownloadError, w1)
    end.
Proof.
  intros Hu Hw Hd.
  unfold _real_extract. rewrite Hu. unfold bind at 1. unfold _download_webpage.
  rewrite Hw, Hd. unfold opening, initiate_event, page_title.
  destruct (dimensions page) as [wd ht]. cbn [fst snd].
  unfold bind, _download_json, log, next_response.
  cbn [json_responses webpage_response trace]. rewrite <- app_assoc. cbn [app]. rewrite Hw.
  destruct (json_responses w) as [|[body|] rest]; try reflexivity.
  cbn [parsed tl]. destruct (json_loads (_strip_json_hijack body)) as [j|]; [|reflexivity].
  destruct (traverse_obj j [K $"export"; K $"exportIdentifier"] str) as [[|c e]|];
    reflexivity.
Qed.

(** Every run of the extractor is one of six. *)
Lemma real_extract_cases url w :
  (_match_valid_url url = None /\ _real_extract url w = (Raise AttributeError, w))
  \/ (exists video_id token,
        _match_valid_url url = Some (video_id, token) /\ webpage_response w = None /\
        _real_extract url w = (Raise DownloadError, log (Download_webpage url video_id) w))
  \/ (exists video_id token page,
        _match_valid_url url = Some (video_id, token) /\ webpage_response w = Some page /\
        access_denied page = true /\
        _real_extract url w = (Raise AccessDeniedError, log (Download_webpage url video_id) w))
  \/ (exists video_id token page,
        _match_valid_url url = Some (video_id, token) /\ webpage_response w = Some page /\
        access_denied page = false /\ broken (json_responses w) /\
        _real_extract url w =
          (Raise DownloadError,
           World (webpage_response w) (tl (json_responses w))
                 (trace w ++ opening url video_id token page)))
  \/ (exists video_id token page r rest j,
        _match_valid_url url = Some (video_id, token) /\ webpage_response w = Some page /\
        access_denied page = false /\ json_responses w = r :: rest /\ parsed r = Some j /\
        (traverse_obj j [K $"export"; K $"exportIdentifier"] str = None \/
         traverse_obj j [K $"export"; K $"exportIdentifier"] str = Some []) /\
        _real_extract url w =
          (Raise ProtocolError_no_identifier,
           World (webpage_response w) rest (trace w ++ opening url video_id token page)))
  \/ (exists video_id token page r rest j export_id,
        _match_valid_url url = Some (video_id, token) /\ webpage_response w = Some page /\
        access_denied page = false /\ json_responses w = r :: rest /\ parsed r = Some j /\
        traverse_obj j [K $"export"; K $"exportIdentifier"] str = Some export_id /\
        export_id <> [] /\
        _real_extract url w =
          poll_export video_id export_id (page_title page) (_og_search_thumbnail page)
            (fst (dimensions page)) (snd (dimensions page))
            (World (webpage_response w) rest (trace w ++ opening url video_id token page))).
Proof.
  destruct (_match_valid_url url) as [[video_id token]|] eqn:Hu.
  2: { left. split; auto. unfold _real_extract. rewrite Hu. reflexivity. }
  right. destruct (webpage_response w) as [page|] eqn:Hw.
  2: { left. exists video_id, token. repeat split; auto.
       unfold _real_extract. rewrite Hu. unfold bind, _download_webpage. rewrite Hw.
       reflexivity. }
  right. destruct (access_denied page) eqn:Hd.
  { left. exists video_id, token, page. repeat split; auto.
    unfold _real_extract. rewrite Hu. unfold bind, _download_webpage. rewrite Hw, Hd.
    reflexivity. }
  right.
  rewrite (real_extract_after_page url w video_id token page Hu Hw Hd), Hw.
  cbv zeta.
  destruct (json_responses w) as [|r rest] eqn:Hr.
  { left. exists video_id, token, page. repeat split; auto. left. reflexivity. }
  destruct (parsed r) as [j|] eqn:Hj.
  2: { left. exists video_id, token, page. repeat split; auto. right. eauto. }
  right. cbn [tl].
  destruct (traverse_obj j [K $"export"; K $"exportIdentifier"] str) as [[|c e]|] eqn:He.
  - left. exists video_id, token, page, r, rest, j. repeat split; auto.
  - right. exists video_id, token, page, r, rest, j, (c :: e). repeat split; auto. discriminate.
  - left. exists video_id, token, page, r, rest, j. repeat split; auto.
Qed.

End ExtractorRuns.

(** ** The access check *)

Lemma access_denied_has_marker page :
  access_denied page = true ->
  occurs $"Request access" page \/
  exists m, any_case_of $"permission" m /\ occurs m page.
Proof.
  unfold access_denied. rewrite orb_true_iff, !contains_occurs.
  intros [(a & b & E) | Ho]; [|left; exact Ho]. right.
  unfold lower in E. apply map_eq_app in E. destruct E as (pre & tl1 & -> & <- & E).
  apply map_eq_app in E. destruct E as (m & post & -> & Em & <-).
  exists m. split; [exact Em|]. exists pre, post. reflexivity.
Qed.

(** X11.  The access check refuses a page exactly when the page contains
    [Request access], written so, or [permission] in some letter case;
    no other text makes it refuse. *)
Theorem access_denied_iff page :
  access_denied page = true <->
  (occurs $"Request access" page \/
   exists m, any_case_of $"permission" m /\ occurs m page).
Proof.
  split; [apply access_denied_has_marker|].
  unfold access_denied. rewrite orb_true_iff, !contains_occurs.
  intros [Ho | (m & Hm & pre & post & ->)]; [right; exact Ho|]. left.
  exists (lower pre), (lower post). rewrite !lower_app, Hm. reflexivity.
Qed.

(** ** The extractor as a whole *)

Lemma cycles_kinds video_id export_id k :
  length (filter is_json_request (cycles video_id export_id k)) = k
  /\ filter is_export_request (cycles video_id export_id k) = []
  /\ filter is_page_request (cycles video_id export_id k) = [].
Proof.
  induction k as [|k (IH1 & IH2 & IH3)]; [repeat split; reflexivity|].
  rewrite cycles_succ, !filter_app, length_app, IH1, IH2, IH3.
  simpl. repeat split; lia.
Qed.

Section ExtractorProperties.

Context `{Host}.

(** X12.  The extractor fails with [AccessDeniedError] only on a page that
    contains one of the two markers; the page fetch is then the only
    request it has made. *)
Theorem access_denied_only_on_markers url w :
  fst (_real_extract url w) = Raise AccessDeniedError ->
  exists video_id token page,
    _match_valid_url url = Some (video_id, token) /\ webpage_response w = Some page /\
    (occurs $"Request access" page \/
     exists m, any_case_of $"permission" m /\ occurs m page) /\
    snd (_real_extract url w) = log (Download_webpage url video_id) w.
Proof.
  destruct (real_extract_cases url w)
    as [(_ & E) | [(i & t & _ & _ & E) | [(i & t & page & Hu & Hw & Hd & E)
       | [(i & t & page & _ & _ & _ & _ & E) | [(i & t & page & r & rest & j & _ & _ & _ & _ & _ & _ & E)
       | (i & t & page & r & rest & j & e & _ & _ & _ & _ & _ & _ & _ & E)]]]]];
    rewrite E; cbn [fst snd]; intros Ho; absurd_outcome.
  - exists i, t, page. repeat split; auto. apply access_denied_has_marker. exact Hd.
  - apply poll_raises in Ho.
    destruct Ho as [Ho | [Ho | [Ho | Ho]]]; vm_compute in Ho; discriminate Ho.
Qed.

(** X13.  In every run the calls of the extractor are, in this order: at
    most one page fetch, then at most one export request, then at most 30
    cycles of a 3-second delay and a poll.  One response is read for each
    JSON request, and the total delay is at most 90 seconds. *)
Theorem real_extract_calls url w :
  exists evs,
    snd (_real_extract url w) =
      World (webpage_response w)
            (skipn (length (filter is_json_request evs)) (json_responses w))
            (trace w ++ evs)
    /\ (evs = []
        \/ (exists video_id, evs = [Download_webpage url video_id])
        \/ (exists video_id token page, evs = opening url video_id token page)
        \/ (exists video_id token page export_id k,
              1 <= k <= 30 /\
              evs = opening url video_id token page ++ cycles video_id export_id k))
    /\ length (filter is_page_request evs) <= 1
    /\ length (filter is_export_request evs) <= 1
    /\ length (filter is_poll_request evs) <= 30
    /\ total_sleep evs <= 90.
Proof.
  destruct (real_extract_cases url w)
    as [(_ & E) | [(i & t & _ & _ & E) | [(i & t & page & _ & _ & _ & E)
       | [(i & t & page & _ & _ & _ & Hb & E) | [(i & t & page & r & rest & j & _ & _ & _ & Hr & _ & _ & E)
       | (i & t & page & r & rest & j & e & _ & _ & _ & Hr & _ & _ & _ & E)]]]]];
    rewrite E; cbn [snd].
  - exists []. rewrite app_nil_r. destruct w. simpl. repeat split; auto; lia.
  - exists [Download_webpage url i].
    split; [reflexivity|]. split; [right; left; eauto|]. simpl. repeat split; lia.
  - exists [Download_webpage url i].
    split; [reflexivity|]. split; [right; left; eauto|]. simpl. repeat split; lia.
  - exists (opening url i t page).
    split; [destruct Hb as [-> | (r & rest & -> & _)]; reflexivity|].
    split; [right; right; left; eauto|]. simpl. repeat split; lia.
  - exists (opening url i t page).
    split; [rewrite Hr; reflexivity|].
    split; [right; right; left; eauto|]. simpl. repeat split; lia.
  - destruct (poll_stops i e (page_title page) (_og_search_thumbnail page)
                (fst (dimensions page)) (snd (dimensions page))
                (World (webpage_response w) rest (trace w ++ opening url i t page)))
      as (k & Hk & Ek).
    rewrite Ek. unfold after_cycles. cbn [webpage_response json_responses trace].
    destruct (cycles_counts i e k) as (C1 & _ & C3).
    destruct (cycles_kinds i e k) as (K1 & K2 & K3).
    exists (opening url i t page ++ cycles i e k).
    rewrite !filter_app, !length_app, total_sleep_app, C1, C3, K1, K2, K3, Hr, <- app_assoc.
    simpl. repeat split; try lia.
    right. right. right. exists i, t, page, e, k. auto.
Qed.

(** X14.  When the extractor returns a result, the URL had the expected
    shape and the page was fetched and not refused; the first response
    read gave a non-empty export identifier, fewer than 30 pending
    responses followed, and the next response read had status [COMPLETE].
    The result holds the id taken from the URL, the extension [mp4], the
    non-empty URL found in that response (first path, else second), the
    thumbnail and the dimensions read from the page, and as title that
    response's output title or else the page's.  The calls made in the run
    are the page fetch, one export request that carries the id, the token
    and those dimensions, and the cycles up to that response. *)
Theorem real_extract_result url w v :
  fst (_real_extract url w) = Return v ->
  exists video_id token page r0 j0 export_id ps r rest j,
    _match_valid_url url = Some (video_id, token) /\ webpage_response w = Some page /\
    access_denied page = false /\
    json_responses w = r0 :: ps ++ r :: rest /\
    parsed r0 = Some j0 /\
    traverse_obj j0 [K $"export"; K $"exportIdentifier"] str = Some export_id /\
    export_id <> [] /\
    Forall pending ps /\ length ps < 30 /\
    parsed r = Some j /\ status_of j = Some $"COMPLETE" /\
    (url_at j url_path_1 = Some (info_url v) \/
     (url_at j url_path_1 = None /\ url_at j url_path_2 = Some (info_url v))) /\
    v = Info video_id (result_title j (page_title page)) (info_url v) $"mp4"
             (_og_search_thumbnail page) (fst (dimensions page)) (snd (dimensions page)) /\
    info_url v <> [] /\
    snd (_real_extract url w) =
      World (webpage_response w) rest
            (trace w ++ opening url video_id token page
             ++ cycles video_id export_id (S (length ps))).
Proof.
  destruct (real_extract_cases url w)
    as [(_ & E) | [(i & t & _ & _ & E) | [(i & t & page & _ & _ & _ & E)
       | [(i & t & page & _ & _ & _ & _ & E) | [(i & t & page & r & rest & j & _ & _ & _ & _ & _ & _ & E)
       | (i & t & page & r0 & rest0 & j0 & e & Hu & Hw & Hd & Hr & Hj0 & He & Hne & E)]]]]];
    rewrite E; cbn [fst snd]; intros Ho; try discriminate.
  destruct (poll_cases i e (page_title page) (_og_search_thumbnail page)
              (fst (dimensions page)) (snd (dimensions page))
              (World (webpage_response w) rest0 (trace w ++ opening url i t page)))
    as [(ps & rest & _ & _ & _ & Ep) | [(ps & r & rest & j & _ & _ & _ & _ & _ & Ep)
       | [(ps & r & rest & j & Hr' & Hl & Hp & Hj & Hs & Ep) | (ps & tail & _ & _ & _ & _ & Ep)]]];
    rewrite Ep in Ho |- *; cbn [fst snd] in Ho |- *; try discriminate.
  cbn [json_responses] in Hr'. subst rest0.
  exists i, t, page, r0, j0, e, ps, r, rest, j.
  unfold after_cycles. cbn [webpage_response trace]. rewrite <- app_assoc.
  unfold complete_outcome in Ho.
  destruct (url_at j url_path_1) as [u|] eqn:E1.
  - injection Ho as <-. cbn [info_url]. repeat split; auto.
    eapply url_at_nonempty; eauto.
  - destruct (url_at j url_path_2) as [u|] eqn:E2; [|discriminate].
    injection Ho as <-. cbn [info_url]. repeat split; auto.
    eapply url_at_nonempty; eauto.
Qed.

(** X15.  An export identifier that is the empty string is refused like a
    missing one: the extraction fails with [ProtocolError] after the
    export request, without a delay or a poll. *)
Theorem empty_export_identifier url w video_id token page r rest j :
  _match_valid_url url = Some (video_id, token) ->
  webpage_response w = Some page -> access_denied page = false ->
  json_responses w = r :: rest -> parsed r = Some j ->
  traverse_obj j [K $"export"; K $"exportIdentifier"] str = Some [] ->
  _real_extract url w =
    (Raise ProtocolError_no_identifier,
     World (webpage_response w) rest (trace w ++ opening url video_id token page)).
Proof.
  intros Hu Hw Hd Hr Hj He.
  rewrite (real_extract_after_page url w video_id token page Hu Hw Hd).
  rewrite Hr, Hj, He. reflexivity.
Qed.

(** X16.  A URL that has not the expected shape makes the extractor fail
    at once: no request is made and the world is left as it was. *)
Theorem foreign_url_fails_before_any_request url w :
  (forall https www video_id token watch tail,
      is_segment video_id -> is_segment token ->
      url <> canva_url https www video_id token watch tail) ->
  _real_extract url w = (Raise AttributeError, w).
Proof.
  intros Hno. unfold _real_extract, _match_valid_url.
  destruct (re_match _VALID_URL url) as [st|] eqn:E; [|reflexivity].
  exfalso.
  destruct (valid_url_sound _ _ E) as (c1 & c2 & c3 & tail & i & t & Hu & Hi & Ht & _).
  exact (Hno c1 c2 i t c3 tail Hi Ht Hu).
Qed.

(** X17.  When the export request fails inside the host (no response, a
    failed request or a body that is not JSON), the extraction fails with
    it after the page fetch and that one request: it is not repeated, and
    no delay and no poll follow. *)
Theorem export_request_failure_stops url w video_id token page :
  _match_valid_url url = Some (video_id, token) ->
  webpage_response w = Some page -> access_denied page = false ->
  broken (json_responses w) ->
  _real_extract url w =
    (Raise DownloadError,
     World (webpage_response w) (tl (json_responses w))
           (trace w ++ opening url video_id token page)).
Proof.
  intros Hu Hw Hd Hb.
  rewrite (real_extract_after_page url w video_id token page Hu Hw Hd).
  destruct Hb as [-> | (r & rest & -> & Hp)]; [reflexivity|].
  rewrite Hp. reflexivity.
Qed.

End ExtractorProperties.

(** ** The further theorems at concrete inputs *)


Lemma poll_failure_causes_witness :
  exists ps rest,
    json_responses world_never_done = ps ++ rest /\ length ps = 30 /\
    Forall (pending (H := demo_host)) ps.
Proof.
  apply (proj1 (poll_failure_causes (H := demo_host) demo_id $"E1" None None
                  (Some 1920%Z) (Some 1080%Z) world_never_done)).
  vm_compute. reflexivity.
Defined.

Lemma poll_failed_after_pending_witness :
  poll_export (H := demo_host) demo_id $"E1" None None (Some 1920%Z) (Some 1080%Z)
    world_failed_third =
    (Raise RemoteJobError,
     after_cycles demo_id $"E1" world_failed_third 3 [guarded complete_text]).
Proof.
  apply (poll_failed_after_pending (H := demo_host) demo_id $"E1" None None
           (Some 1920%Z) (Some 1080%Z) world_failed_third
           [guarded (status_text $"PENDING"); guarded (status_text $"PENDING")]
           (guarded (status_text $"FAILED")) [guarded complete_text]
           (status_json $"FAILED")).
  - reflexivity.
  - repeat constructor; exists (status_json $"PENDING");
      (split; [vm_compute; reflexivity|]); split; vm_compute; discriminate.
  - simpl. lia.
  - vm_compute. reflexivity.
  - vm_compute. reflexivity.
Defined.

Lemma poll_host_failure_not_retried_witness :
  poll_export (H := demo_host) demo_id $"E1" None None (Some 1920%Z) (Some 1080%Z)
    world_garbled_second =
    (Raise DownloadError,
     after_cycles demo_id $"E1" world_garbled_second 2 [guarded complete_text]).
Proof.
  apply (poll_host_failure_not_retried (H := demo_host) demo_id $"E1" None None
           (Some 1920%Z) (Some 1080%Z) world_garbled_second
           [guarded (status_text $"PENDING")]
           [Some $"<html>502 Bad Gateway</html>"; guarded complete_text]).
  - reflexivity.
  - repeat constructor; exists (status_json $"PENDING");
      (split; [vm_compute; reflexivity|]); split; vm_compute; discriminate.
  - simpl. lia.
  - right. exists (Some $"<html>502 Bad Gateway</html>"), [guarded complete_text].
    split; [reflexivity | vm_compute; reflexivity].
Defined.

Lemma access_denied_only_on_markers_witness :
  exists video_id token page,
    _match_valid_url demo_url = Some (video_id, token) /\
    webpage_response world_request_access = Some page /\
    (occurs $"Request access" page \/
     exists m, any_case_of $"permission" m /\ occurs m page).
Proof.
  assert (Hv : fst (_real_extract (H := demo_host) demo_url world_request_access)
               = Raise AccessDeniedError) by (vm_compute; reflexivity).
  destruct (access_denied_only_on_markers (H := demo_host) demo_url world_request_access Hv)
    as (i & t & page & Hu & Hw & Hm & _).
  exists i, t, page. auto.
Defined.

Lemma real_extract_result_witness :
  exists video_id token page r0 ps r rest,
    _match_valid_url demo_url = Some (video_id, token) /\
    webpage_response world_exported = Some page /\ access_denied page = false /\
    json_responses world_exported = r0 :: ps ++ r :: rest /\
    dimensions page = (Some 1280%Z, Some 720%Z).
Proof.
  assert (Hv : fst (_real_extract (H := demo_host) demo_url world_exported)
               = Return (Info demo_id (Some $"Untitled design")
                           $"https://export-download.canva.com/v.mp4" $"mp4" None
                           (Some 1280%Z) (Some 720%Z)))
    by (vm_compute; reflexivity).
  destruct (real_extract_result (H := demo_host) demo_url world_exported _ Hv)
    as (i & t & page & r0 & j0 & e & ps & r & rest & j
        & Hu & Hw & Hd & Hr & _ & _ & _ & _ & _ & _ & _ & _ & Ev & _).
  exists i, t, page, r0, ps, r, rest. repeat split; auto.
  injection Ev as _ _ Ew Eh.
  rewrite (surjective_pairing (dimensions page)), <- Ew, <- Eh. reflexivity.
Defined.

Lemma empty_export_identifier_witness :
  _real_extract (H := demo_host_2) demo_url world_empty_identifier =
    (Raise ProtocolError_no_identifier,
     World (webpage_response world_empty_identifier) [guarded complete_text]
       (trace world_empty_identifier
        ++ opening demo_url demo_id demo_token $"<html><title>Design</title></html>")).
Proof.
  apply (empty_export_identifier (H := demo_host_2) demo_url world_empty_identifier
           demo_id demo_token $"<html><title>Design</title></html>"
           (guarded empty_identifier_text) [guarded complete_text] empty_identifier_json);
    vm_compute; reflexivity.
Defined.

Lemma foreign_url_fails_before_any_request_witness :
  _real_extract (H := demo_host) $"https://www.canva.com/design/DAHCoH4To0w/watch"
    world_exported = (Raise AttributeError, world_exported).
Proof.
  apply foreign_url_fails_before_any_request.
  intros https www i t watch tail Hi Ht E.
  pose proof (valid_url_matches https www i t watch tail Hi Ht) as Hm.
  rewrite <- E in Hm. vm_compute in Hm. apply Hm. reflexivity.
Defined.

Lemma export_request_failure_stops_witness :
  _real_extract (H := demo_host) demo_url world_export_request_fails =
    (Raise DownloadError,
     World (webpage_response world_export_request_fails) [guarded complete_text]
       (trace world_export_request_fails
        ++ opening demo_url demo_id demo_token $"<html><title>Design</title></html>")).
Proof.
  apply (export_request_failure_stops (H := demo_host) demo_url world_export_request_fails
           demo_id demo_token $"<html><title>Design</title></html>").
  - vm_compute. reflexivity.
  - reflexivity.
  - vm_compute. reflexivity.
  - right. exists None, [guarded complete_text]. split; reflexivity.
Defined.

(** ** Reading the dimensions as numbers *)

Lemma digit_val_range c : digit c = true -> (0 <= digit_val c <= 9)%Z.
Proof.
  unfold digit, digit_val. cbv zeta. intros H. apply andb_prop in H. destruct H as [H1 H2].
  apply Nat.leb_le in H1, H2. lia.
Qed.

Lemma digits_val_nonneg : forall s acc,
  forallb digit s = true -> (0 <= acc)%Z -> (0 <= digits_val acc s)%Z.
Proof.
  induction s as [|c s IH]; intros acc Hs Ha; cbn [digits_val forallb] in *; auto.
  apply andb_prop in Hs. destruct Hs as [Hc Hs].
  apply IH; auto. pose proof (digit_val_range c Hc). lia.
Qed.

Lemma is_zero_digit c : is_zero c = true -> digit c = true /\ digit_val c = 0%Z.
Proof.
  unfold is_zero. intros E. apply chr_eqb_eq in E. subst c. split; reflexivity.
Qed.

Lemma zeros_are_digits s : forallb is_zero s = true -> forallb digit s = true.
Proof.
  induction s as [|c s IH]; simpl; auto. intros E.
  apply andb_prop in E. destruct E as [Ec Es].
  destruct (is_zero_digit c Ec) as [-> _]. auto.
Qed.

Lemma digits_val_zeros : forall s acc,
  forallb is_zero s = true -> digits_val acc s = (acc * 10 ^ Z.of_nat (length s))%Z.
Proof.
  induction s as [|c s IH]; intros acc Hs; cbn [length digits_val].
  - simpl. lia.
  - cbn [forallb] in Hs. apply andb_prop in Hs. destruct Hs as [Hc Hs].
    destruct (is_zero_digit c Hc) as [_ Hv]. rewrite IH, Hv; auto.
    rewrite Nat2Z.inj_succ, Z.pow_succ_r by lia. lia.
Qed.

Lemma span_digits_app : forall a b,
  forallb digit a = true -> (b = [] \/ starts_outside digit b) ->
  span_digits (a ++ b) = (a, b).
Proof.
  induction a as [|c a IH]; intros b Ha Hb; cbn [app span_digits forallb] in *.
  - destruct Hb as [-> | Hb]; [reflexivity|].
    destruct b as [|d b]; [contradiction|]. cbn [starts_outside span_digits] in *.
    rewrite Hb. reflexivity.
  - apply andb_prop in Ha. destruct Ha as [Hc Ha]. rewrite Hc, (IH b Ha Hb). reflexivity.
Qed.

(** An integral literal is read as its integer over a power of ten. *)
Lemma parse_decimal_integral ip frac :
  is_integral ip frac ->
  exists k, parse_decimal (ip ++ frac) = Some ((digits_val 0 ip * 10 ^ Z.of_nat k)%Z, k).
Proof.
  intros (Hne & Hip & [-> | (zeros & -> & Hzne & Hz)]); unfold parse_decimal.
  - rewrite (span_digits_app ip [] Hip) by auto.
    destruct ip as [|c ip]; [contradiction|]. exists 0%nat. simpl Z.of_nat.
    rewrite Z.pow_0_r, Z.mul_1_r. reflexivity.
  - rewrite (span_digits_app ip ("."%char :: zeros) Hip) by (right; reflexivity).
    destruct ip as [|c ip]; [contradiction|]. destruct zeros as [|z zeros]; [contradiction|].
    rewrite (zeros_are_digits _ Hz). exists (length (z :: zeros)).
    unfold chr_eqb. rewrite Ascii.eqb_refl. cbn [andb].
    rewrite (digits_val_zeros _ _ Hz). reflexivity.
Qed.

Lemma round_half_even_exact q d : (0 < d)%Z -> round_half_even (q * d) d = q.
Proof.
  intros Hd. unfold round_half_even.
  rewrite Z.div_mul, Z.mod_mul by lia.
  destruct (2 * 0 <? d)%Z eqn:E; [reflexivity|]. apply Z.ltb_ge in E. lia.
Qed.

(** An integer below [2^53] is a binary64 value: rounding its quotient
    and truncating give it back. *)
Lemma int_of_float_exact v d :
  (0 <= v < 2 ^ 53)%Z -> (0 < d)%Z ->
  int_or_none (Some (float_of_ratio (v * d) d)) = Some v.
Proof.
  intros Hv Hd. unfold float_of_ratio.
  destruct (v * d =? 0)%Z eqn:E0.
  { apply Z.eqb_eq in E0. assert (v = 0)%Z by nia. subst v. reflexivity. }
  apply Z.eqb_neq in E0. assert (Hv0 : (0 < v)%Z) by nia.
  set (e0 := (Z.log2 (v * d) - Z.log2 d - 53)%Z).
  assert (He0 : (e0 <= 0)%Z).
  { pose proof (Z.log2_mul_above v d ltac:(lia) ltac:(lia)).
    assert (Z.log2 v < 53)%Z by (apply Z.log2_lt_pow2; lia). unfold e0. lia. }
  assert (Hs : forall e, (e <= 0)%Z ->
             exists d1, scaled (v * d) d e = ((v * 2 ^ (- e) * d1)%Z, d1) /\ (0 < d1)%Z).
  { intros e He. unfold scaled. destruct (0 <=? e)%Z eqn:Ee.
    - apply Z.leb_le in Ee. assert (e = 0)%Z by lia. subst e. exists (d * 2 ^ 0)%Z.
      split; [f_equal; simpl; lia | simpl; lia].
    - exists d. split; [f_equal; lia | lia]. }
  destruct (Hs e0 He0) as (d0 & -> & Hd0).
  rewrite Z.div_mul by lia.
  set (e1 := if (2 ^ 53 <=? v * 2 ^ (- e0))%Z then (e0 + 1)%Z else e0).
  assert (He1 : (e1 <= 0)%Z).
  { unfold e1. destruct (2 ^ 53 <=? v * 2 ^ (- e0))%Z eqn:E; [|lia].
    apply Z.leb_le in E. destruct (Z.eq_dec e0 0) as [Ez|Ez]; [|lia].
    rewrite Ez in E. simpl in E. lia. }
  set (e := Z.max e1 (-1074)). assert (He : (e <= 0)%Z) by (unfold e; lia).
  destruct (Hs e He) as (d1 & -> & Hd1).
  rewrite round_half_even_exact by lia.
  assert (Hp : (0 < 2 ^ (- e))%Z) by (apply Z.pow_pos_nonneg; lia).
  destruct (Z.eq_dec e 0) as [Ez|Ez].
  - rewrite Ez. simpl Z.opp. rewrite Z.pow_0_r, !Z.mul_1_r.
    destruct (2 ^ 1024 <=? v)%Z eqn:Eo.
    { apply Z.leb_le in Eo. assert (2 ^ 53 < 2 ^ 1024)%Z by reflexivity. lia. }
    simpl. f_equal. lia.
  - rewrite (Z.pow_neg_r 2 e) by lia. rewrite Z.mul_0_r.
    replace (2 ^ 1024 <=? 0)%Z with false by reflexivity.
    unfold int_or_none. destruct (0 <=? e)%Z eqn:Ee; [apply Z.leb_le in Ee; lia|].
    rewrite Z.div_mul by lia. reflexivity.
Qed.

(** X18.  A number of the page that denotes an integer below [2^53]
    (digits, with at most a fraction of zeros) is turned into exactly that
    integer: the passage through a float loses nothing. *)
Theorem integral_dimension_exact ip frac :
  is_integral ip frac -> (digits_val 0 ip < 2 ^ 53)%Z ->
  int_or_none (float_or_none (Some (ip ++ frac))) = Some (digits_val 0 ip).
Proof.
  intros Hi Hlt. destruct (parse_decimal_integral ip frac Hi) as (k & Hk).
  unfold float_or_none. rewrite Hk.
  apply int_of_float_exact.
  - split; [|exact Hlt]. destruct Hi as (_ & Hip & _).
    apply digits_val_nonneg; auto. lia.
  - apply Z.pow_pos_nonneg; lia.
Qed.

Lemma integral_dimension_exact_witness :
  int_or_none (float_or_none (Some ($"3840" ++ $".00"))) = Some 3840%Z.
Proof.
  apply (integral_dimension_exact $"3840" $".00").
  - repeat split; try discriminate. right. exists $"00". repeat split. discriminate.
  - reflexivity.
Defined.

(** ** Rounding to the nearest float *)

Lemma scaled_num_den n d e : scaled n d e = (num n e, den d e).
Proof.
  unfold scaled, num, den. destruct (0 <=? e)%Z eqn:E.
  - apply Z.leb_le in E. rewrite (Z.max_l 0 (- e)), (Z.max_r 0 e) by lia.
    rewrite Z.pow_0_r, Z.mul_1_r. reflexivity.
  - apply Z.leb_gt in E. rewrite (Z.max_r 0 (- e)), (Z.max_l 0 e) by lia.
    rewrite Z.pow_0_r, Z.mul_1_r. reflexivity.
Qed.

Lemma num_den_pos n d e : (0 < n)%Z -> (0 < d)%Z -> (0 < num n e)%Z /\ (0 < den d e)%Z.
Proof.
  intros Hn Hd. unfold num, den.
  assert (0 < 2 ^ Z.max 0 (- e))%Z by (apply Z.pow_pos_nonneg; lia).
  assert (0 < 2 ^ Z.max 0 e)%Z by (apply Z.pow_pos_nonneg; lia).
  split; apply Z.mul_pos_pos; assumption.
Qed.

(** [round_half_even] gives the nearest integer, the even one at a tie, and
    it is the floor of the quotient or the next integer. *)
Lemma round_half_even_nearest n d :
  (0 < d)%Z ->
  nearest_even n d (round_half_even n d) /\
  (n / d <= round_half_even n d <= n / d + 1)%Z.
Proof.
  intros Hd. unfold nearest_even, round_half_even.
  pose proof (Z.div_mod n d ltac:(lia)) as Hq.
  pose proof (Z.mod_pos_bound n d Hd) as Hr.
  set (q := (n / d)%Z) in *. set (r := (n mod d)%Z) in *.
  destruct (2 * r <? d)%Z eqn:E1; [apply Z.ltb_lt in E1 | apply Z.ltb_ge in E1].
  { replace (q * d - n)%Z with (- r)%Z by lia. repeat split; lia. }
  destruct (d <? 2 * r)%Z eqn:E2; [apply Z.ltb_lt in E2 | apply Z.ltb_ge in E2].
  { replace ((q + 1) * d - n)%Z with (d - r)%Z by lia. repeat split; lia. }
  destruct (Z.even q) eqn:E3.
  { replace (q * d - n)%Z with (- r)%Z by lia. repeat split; auto; lia. }
  replace ((q + 1) * d - n)%Z with (d - r)%Z by lia. repeat split; try lia.
  intros _. replace (q + 1)%Z with (Z.succ q) by lia.
  rewrite Z.even_succ, <- Z.negb_even, E3. reflexivity.
Qed.

(** The nearest integer, ties to even, is one integer. *)
Lemma nearest_even_unique n d m1 m2 :
  (0 < d)%Z -> nearest_even n d m1 -> nearest_even n d m2 -> m1 = m2.
Proof.
  intros Hd [H1 T1] [H2 T2].
  assert (Hc : (m1 = m2 \/ m1 = m2 + 1 \/ m2 = m1 + 1)%Z) by nia.
  destruct Hc as [Hc | [Hc | Hc]]; auto; exfalso; subst.
  - assert (E1 : (2 * Z.abs ((m2 + 1) * d - n) = d)%Z) by nia.
    assert (E2 : (2 * Z.abs (m2 * d - n) = d)%Z) by nia.
    apply T1 in E1. apply T2 in E2.
    replace (m2 + 1)%Z with (Z.succ m2) in E1 by lia.
    rewrite Z.even_succ, <- Z.negb_even, E2 in E1. discriminate.
  - assert (E1 : (2 * Z.abs (m1 * d - n) = d)%Z) by nia.
    assert (E2 : (2 * Z.abs ((m1 + 1) * d - n) = d)%Z) by nia.
    apply T1 in E1. apply T2 in E2.
    replace (m1 + 1)%Z with (Z.succ m1) in E2 by lia.
    rewrite Z.even_succ, <- Z.negb_even, E1 in E2. discriminate.
Qed.

Lemma num_den_succ n d e :
  (0 <= e /\ num n (e + 1) = num n e /\ den d (e + 1) = 2 * den d e)%Z
  \/ (e < 0 /\ num n e = 2 * num n (e + 1) /\ den d (e + 1) = den d e)%Z.
Proof.
  unfold num, den. destruct (Z_le_gt_dec 0 e) as [He | He]; [left | right].
  - rewrite (Z.max_l 0 (- (e + 1))), (Z.max_l 0 (- e)), (Z.max_r 0 (e + 1)),
      (Z.max_r 0 e) by lia.
    replace (e + 1)%Z with (Z.succ e) by lia. rewrite Z.pow_succ_r by lia.
    repeat split; lia.
  - rewrite (Z.max_r 0 (- (e + 1))), (Z.max_r 0 (- e)), (Z.max_l 0 (e + 1)),
      (Z.max_l 0 e) by lia.
    replace (- e)%Z with (Z.succ (- (e + 1))) by lia. rewrite Z.pow_succ_r by lia.
    repeat split; lia.
Qed.

(** The first guess of the exponent leaves 53 or 54 significant bits. *)
Lemma exponent_window n d :
  (0 < n)%Z -> (0 < d)%Z ->
  let e0 := (Z.log2 n - Z.log2 d - 53)%Z in
  (2 ^ 52 * den d e0 <= num n e0 < 2 ^ 54 * den d e0)%Z.
Proof.
  intros Hn Hd e0.
  destruct (Z.log2_spec n Hn) as [Ln1 Ln2]. destruct (Z.log2_spec d Hd) as [Ld1 Ld2].
  pose proof (Z.log2_nonneg n) as Ln0. pose proof (Z.log2_nonneg d) as Ld0.
  rewrite Z.pow_succ_r in Ln2, Ld2 by lia.
  set (B := (2 ^ Z.log2 d)%Z) in *.
  assert (HB : (0 < B)%Z) by (apply Z.pow_pos_nonneg; lia).
  assert (P53 : (2 ^ 53 = 2 * 2 ^ 52)%Z) by reflexivity.
  assert (P54 : (2 ^ 54 = 4 * 2 ^ 52)%Z) by reflexivity.
  assert (P52 : (0 < 2 ^ 52)%Z) by reflexivity.
  set (P := (2 ^ 52)%Z) in *.
  unfold num, den. destruct (Z_le_gt_dec 0 e0) as [He | He].
  - rewrite (Z.max_l 0 (- e0)), (Z.max_r 0 e0) by lia. rewrite Z.pow_0_r, Z.mul_1_r.
    set (A := (2 ^ e0)%Z).
    assert (HA : (0 < A)%Z) by (apply Z.pow_pos_nonneg; lia).
    assert (EL : (2 ^ Z.log2 n = A * B * (2 * P))%Z).
    { unfold A, B. rewrite <- P53, <- !Z.pow_add_r by lia. f_equal. unfold e0. lia. }
    rewrite EL in Ln1, Ln2.
    assert (d * A < 2 * B * A)%Z by (apply Z.mul_lt_mono_pos_r; lia).
    assert (B * A <= d * A)%Z by (apply Z.mul_le_mono_nonneg_r; lia).
    rewrite P54. split; nia.
  - rewrite (Z.max_r 0 (- e0)), (Z.max_l 0 e0) by lia. rewrite Z.pow_0_r, Z.mul_1_r.
    set (A := (2 ^ (- e0))%Z).
    assert (HA : (0 < A)%Z) by (apply Z.pow_pos_nonneg; lia).
    assert (EL : (2 ^ Z.log2 n * A = B * (2 * P))%Z).
    { unfold A, B. rewrite <- P53, <- !Z.pow_add_r by lia. f_equal. unfold e0. lia. }
    assert (2 ^ Z.log2 n * A <= n * A)%Z by (apply Z.mul_le_mono_nonneg_r; lia).
    assert (n * A < 2 * 2 ^ Z.log2 n * A)%Z by (apply Z.mul_lt_mono_pos_r; lia).
    rewrite P54. split; nia.
Qed.

(** The exponent the code settles on leaves exactly 53 significant bits. *)
Lemma normal_exponent n d :
  (0 < n)%Z -> (0 < d)%Z ->
  let e0 := (Z.log2 n - Z.log2 d - 53)%Z in
  let e1 := if (2 ^ 53 <=? num n e0 / den d e0)%Z then (e0 + 1)%Z else e0 in
  (2 ^ 52 * den d e1 <= num n e1 < 2 ^ 53 * den d e1)%Z.
Proof.
  intros Hn Hd e0 e1.
  pose proof (exponent_window n d Hn Hd) as Hw. fold e0 in Hw. cbv zeta in Hw.
  destruct (num_den_pos n d e0 Hn Hd) as [Hnum Hden].
  assert (P53 : (2 ^ 53 = 2 * 2 ^ 52)%Z) by reflexivity.
  assert (P54 : (2 ^ 54 = 4 * 2 ^ 52)%Z) by reflexivity.
  unfold e1. destruct (2 ^ 53 <=? num n e0 / den d e0)%Z eqn:E.
  - apply Z.leb_le in E.
    assert (Hge : (2 ^ 53 * den d e0 <= num n e0)%Z).
    { pose proof (Z.mul_div_le (num n e0) (den d e0) Hden).
      assert (den d e0 * 2 ^ 53 <= den d e0 * (num n e0 / den d e0))%Z
        by (apply Z.mul_le_mono_nonneg_l; lia).
      lia. }
    rewrite P53 in Hge. rewrite P54 in Hw. rewrite P53.
    set (P := (2 ^ 52)%Z) in *.
    destruct (num_den_succ n d e0) as [(_ & -> & ->) | (_ & En & ->)]; [lia|].
    rewrite En in Hge, Hw. lia.
  - apply Z.leb_gt in E.
    assert (Hlt : (num n e0 < 2 ^ 53 * den d e0)%Z).
    { destruct (Z_lt_ge_dec (num n e0) (2 ^ 53 * den d e0)) as [L|L]; auto.
      exfalso. assert (2 ^ 53 <= num n e0 / den d e0)%Z; [|lia].
      apply Z.div_le_lower_bound; lia. }
    lia.
Qed.

(** Below the least exponent the quotient has fewer than 53 bits. *)
Lemma subnormal_exponent n d e1 :
  (0 < n)%Z -> (0 < d)%Z -> (e1 < -1074)%Z ->
  (num n e1 < 2 ^ 53 * den d e1)%Z ->
  (num n (-1074) < 2 ^ 52 * den d (-1074))%Z.
Proof.
  intros Hn Hd He. unfold num, den.
  rewrite (Z.max_r 0 (- e1)), (Z.max_l 0 e1) by lia.
  rewrite (Z.max_r 0 (- -1074)), (Z.max_l 0 (-1074)) by lia.
  rewrite Z.pow_0_r, !Z.mul_1_r.
  replace (- e1)%Z with (Z.succ (- -1074) + (- e1 - 1075))%Z by lia.
  rewrite Z.pow_add_r, Z.pow_succ_r by lia.
  assert (P53 : (2 ^ 53 = 2 * 2 ^ 52)%Z) by reflexivity. rewrite P53.
  set (P := (2 ^ 52)%Z). set (Q := (2 ^ (- -1074))%Z). set (R := (2 ^ (- e1 - 1075))%Z).
  assert (HQ : (0 < Q)%Z) by (apply Z.pow_pos_nonneg; lia).
  assert (HR : (1 <= R)%Z) by (assert (0 < R)%Z by (apply Z.pow_pos_nonneg; lia); lia).
  intros H. assert (n * Q * 1 <= n * Q * R)%Z by (apply Z.mul_le_mono_nonneg_l; nia).
  nia.
Qed.

(** [float_of_ratio] rounds to binary64: the mantissa and the exponent it
    finds are those of the rounding, and it answers infinity exactly when
    the rounded value overflows. *)
Lemma float_of_ratio_rounds n d :
  (0 < n)%Z -> (0 < d)%Z ->
  exists m e,
    rounds_to n d m e /\
    ((overflows m e /\ float_of_ratio n d = Infinity)
     \/ (~ overflows m e /\ float_of_ratio n d = Finite m e)).
Proof.
  intros Hn Hd. unfold float_of_ratio.
  destruct (n =? 0)%Z eqn:E0; [apply Z.eqb_eq in E0; lia|]. cbv zeta.
  rewrite scaled_num_den. cbv iota beta.
  pose proof (normal_exponent n d Hn Hd) as Hnorm. cbv zeta in Hnorm.
  set (e0 := (Z.log2 n - Z.log2 d - 53)%Z) in *.
  set (e1 := if (2 ^ 53 <=? num n e0 / den d e0)%Z then (e0 + 1)%Z else e0) in *.
  set (e := Z.max e1 (-1074)).
  rewrite scaled_num_den. cbv iota beta.
  destruct (num_den_pos n d e Hn Hd) as [Hnum Hden].
  destruct (round_half_even_nearest (num n e) (den d e) Hden) as [Hnear _].
  set (m := round_half_even (num n e) (den d e)) in *.
  exists m, e. split.
  - split; [exact Hnear|].
    destruct (Z_le_gt_dec (-1074) e1) as [L|L].
    + left. unfold e. rewrite Z.max_l by lia. split; [lia | exact Hnorm].
    + right. unfold e. rewrite Z.max_r by lia. split; [reflexivity|].
      apply (subnormal_exponent n d e1); auto; lia.
  - destruct (2 ^ 1024 <=? m * 2 ^ e)%Z eqn:Eo.
    + left. split; [|reflexivity]. apply Z.leb_le in Eo. split; [|exact Eo].
      destruct (Z_le_gt_dec 0 e) as [L|L]; auto.
      rewrite (Z.pow_neg_r 2 e) in Eo by lia. rewrite Z.mul_0_r in Eo.
      assert (0 < 2 ^ 1024)%Z by reflexivity. lia.
    + right. split; [|reflexivity]. apply Z.leb_gt in Eo. intros [_ Ho]. lia.
Qed.

(** The rounded value overflows exactly from [2^1024 - 2^970] on, half way
    between the largest float and [2^1024]. *)
Lemma overflows_iff n d m e :
  (0 < n)%Z -> (0 < d)%Z -> rounds_to n d m e ->
  (overflows m e <-> ((2 ^ 1024 - 2 ^ 970) * d <= n)%Z).
Proof.
  intros Hn Hd [[Hnear Htie] Hexp]. unfold overflows.
  destruct (num_den_pos n d e Hn Hd) as [Hnum Hden].
  assert (P53 : (2 ^ 53 = 2 * 2 ^ 52)%Z) by reflexivity.
  assert (P52 : (0 < 2 ^ 52)%Z) by reflexivity.
  assert (Odd : Z.even (2 * 2 ^ 52 - 1) = false) by reflexivity.
  assert (S971 : (2 ^ 971 = 2 * 2 ^ 970)%Z) by reflexivity.
  assert (S972 : (2 ^ 972 = 4 * 2 ^ 970)%Z) by reflexivity.
  assert (S1024 : (2 ^ 1024 = 4 * 2 ^ 52 * 2 ^ 970)%Z) by reflexivity.
  assert (S970 : (0 < 2 ^ 970)%Z) by reflexivity.
  rewrite S1024. rewrite P53 in Hexp.
  set (P := (2 ^ 52)%Z) in *. set (S := (2 ^ 970)%Z) in *.
  destruct (Z_le_gt_dec 0 e) as [He | He].
  - (* a non-negative exponent: the quotient is n / (d * 2^e) *)
    assert (En : num n e = n).
    { unfold num. rewrite Z.max_l by lia. rewrite Z.pow_0_r. lia. }
    assert (Ed : den d e = (d * 2 ^ e)%Z).
    { unfold den. rewrite Z.max_r by lia. reflexivity. }
    destruct Hexp as [[_ Hwin] | [Hsub _]]; [|lia].
    rewrite En, Ed in *. clear En Ed.
    set (E := (2 ^ e)%Z) in *.
    assert (HE : (0 < E)%Z) by (apply Z.pow_pos_nonneg; lia).
    assert (Hm : (P <= m <= 2 * P)%Z) by (split; nia).
    destruct (Z_lt_le_dec e 971) as [L | L].
    { (* too small to overflow *)
      assert (E <= S)%Z by (apply Z.pow_le_mono_r; lia).
      split; [intros [_ Ho]; nia | intros Ho; exfalso; nia]. }
    destruct (Z.eq_dec e 971) as [Ee | Ee].
    { (* the last binade *)
      assert (E = 2 * S)%Z as EE by (unfold E; rewrite Ee; exact S971).
      rewrite EE in *. split.
      - intros [_ Ho]. assert (m = 2 * P)%Z by nia. subst m. nia.
      - intros Ho. split; [lia|].
        destruct (Z_lt_le_dec m (2 * P)) as [Lm | Lm]; [|nia].
        exfalso. assert (m = 2 * P - 1)%Z by nia. subst m.
        assert (2 * Z.abs ((2 * P - 1) * (d * (2 * S)) - n) = d * (2 * S))%Z by nia.
        apply Htie in H. congruence. }
    (* beyond it *)
    assert (4 * S <= E)%Z by (rewrite <- S972; apply Z.pow_le_mono_r; lia).
    split; [intros _; nia | intros _; split; [lia | nia]].
  - (* a negative exponent: the quotient is below 2^53 *)
    assert (Ed : den d e = d).
    { unfold den. rewrite Z.max_l by lia. rewrite Z.pow_0_r. lia. }
    assert (En : (n <= num n e)%Z).
    { unfold num. assert (1 <= 2 ^ Z.max 0 (- e))%Z.
      { assert (0 < 2 ^ Z.max 0 (- e))%Z by (apply Z.pow_pos_nonneg; lia). lia. }
      nia. }
    rewrite Ed in *.
    assert (num n e < 2 * P * d)%Z by (destruct Hexp as [[_ ?] | [_ ?]]; lia).
    split; [intros [? _]; lia | intros Ho; exfalso; nia].
Qed.

(** Moving the exponent up by [k] halves the scaled fraction [k] times. *)
Lemma num_den_shift n d e1 e2 :
  (e1 <= e2)%Z ->
  (num n e1 * den d e2 = 2 ^ (e2 - e1) * (num n e2 * den d e1))%Z.
Proof.
  intros He. unfold num, den.
  replace (n * 2 ^ Z.max 0 (- e1) * (d * 2 ^ Z.max 0 e2))%Z
    with (n * d * (2 ^ Z.max 0 (- e1) * 2 ^ Z.max 0 e2))%Z by ring.
  replace (2 ^ (e2 - e1) * (n * 2 ^ Z.max 0 (- e2) * (d * 2 ^ Z.max 0 e1)))%Z
    with (n * d * (2 ^ (e2 - e1) * 2 ^ Z.max 0 (- e2) * 2 ^ Z.max 0 e1))%Z by ring.
  f_equal. rewrite <- !Z.pow_add_r by lia. f_equal. lia.
Qed.

(** The rounding specification names one float. *)
Lemma rounds_to_unique n d m1 e1 m2 e2 :
  (0 < n)%Z -> (0 < d)%Z ->
  rounds_to n d m1 e1 -> rounds_to n d m2 e2 -> m1 = m2 /\ e1 = e2.
Proof.
  intros Hn Hd [N1 W1] [N2 W2].
  assert (Hlt : forall a b, (a < b)%Z ->
            (2 ^ 52 * den d b <= num n b)%Z -> (num n a < 2 ^ 53 * den d a)%Z -> False).
  { intros a b Hab Hb Ha.
    pose proof (num_den_shift n d a b ltac:(lia)) as Hs.
    destruct (num_den_pos n d a Hn Hd) as [Pa Qa].
    destruct (num_den_pos n d b Hn Hd) as [Pb Qb].
    assert (H2 : (2 <= 2 ^ (b - a))%Z).
    { change 2%Z with (2 ^ 1)%Z at 1. apply Z.pow_le_mono_r; lia. }
    assert (Hx : (2 * (num n b * den d a) <= num n a * den d b)%Z) by (rewrite Hs; nia).
    assert (Hy : (num n a * den d b < 2 ^ 53 * den d a * den d b)%Z) by nia.
    assert (Hz : (2 ^ 52 * den d b * den d a <= num n b * den d a)%Z) by nia.
    replace (2 ^ 53)%Z with (2 * 2 ^ 52)%Z in Hy by reflexivity. nia. }
  assert (He : e1 = e2).
  { destruct W1 as [(L1 & A1 & B1) | (-> & B1)], W2 as [(L2 & A2 & B2) | (-> & B2)].
    - destruct (Z.lt_trichotomy e1 e2) as [H | [H | H]]; auto; exfalso.
      + exact (Hlt e1 e2 H A2 B1).
      + exact (Hlt e2 e1 H A1 B2).
    - destruct (Z.eq_dec e1 (-1074)) as [-> | Hne]; [lia|]. exfalso.
      apply (Hlt (-1074)%Z e1); [lia | exact A1|].
      destruct (num_den_pos n d (-1074) Hn Hd). replace (2 ^ 53)%Z with (2 * 2 ^ 52)%Z by reflexivity. nia.
    - destruct (Z.eq_dec e2 (-1074)) as [-> | Hne]; [lia|]. exfalso.
      apply (Hlt (-1074)%Z e2); [lia | exact A2|].
      destruct (num_den_pos n d (-1074) Hn Hd). replace (2 ^ 53)%Z with (2 * 2 ^ 52)%Z by reflexivity. nia.
    - reflexivity. }
  subst e2. split; [|reflexivity].
  destruct (num_den_pos n d e1 Hn Hd). eapply nearest_even_unique; eauto.
Qed.

Lemma digits_val_app : forall a b acc,
  digits_val acc (a ++ b) = digits_val (digits_val acc a) b.
Proof. induction a as [|c a IH]; intros b acc; cbn [app digits_val]; auto. Qed.

(** A number literal is read as the fraction it denotes. *)
Lemma float_or_none_denotes n :
  is_number n ->
  exists N D, denotes n N D /\ (0 <= N)%Z /\ (0 < D)%Z /\
              float_or_none (Some n) = Some (float_of_ratio N D).
Proof.
  intros (ip & frac & -> & Hne & Hip & Hfrac).
  destruct ip as [|c ip]; [contradiction|].
  destruct Hfrac as [-> | (fp & -> & Hfne & Hfp)].
  - exists (digits_val 0 (c :: ip)), 1%Z. rewrite app_nil_r. repeat split; try lia.
    + exists (c :: ip), []. rewrite app_nil_r. repeat split; auto.
    + apply digits_val_nonneg; auto. lia.
    + unfold float_or_none, parse_decimal.
      rewrite <- (app_nil_r (c :: ip)) at 1.
      rewrite (span_digits_app (c :: ip) [] Hip) by auto. reflexivity.
  - destruct fp as [|f fp]; [contradiction|].
    exists (digits_val 0 ((c :: ip) ++ f :: fp)), (10 ^ Z.of_nat (length (f :: fp)))%Z.
    repeat split.
    + exists (c :: ip), (f :: fp). repeat split; auto.
    + apply digits_val_nonneg; [|lia]. rewrite forallb_app, Hip, Hfp. reflexivity.
    + apply Z.pow_pos_nonneg; lia.
    + unfold float_or_none, parse_decimal.
      rewrite (span_digits_app (c :: ip) ("."%char :: f :: fp) Hip) by (right; reflexivity).
      unfold chr_eqb. rewrite Ascii.eqb_refl, Hfp. cbn [andb].
      rewrite digits_val_app. reflexivity.
Qed.

Lemma int_or_none_truncated m e :
  int_or_none (Some (Finite m e)) = Some (truncated m e).
Proof.
  unfold int_or_none, truncated. f_equal. destruct (0 <=? e)%Z eqn:E.
  - apply Z.leb_le in E. rewrite (Z.max_r 0 e), (Z.max_l 0 (- e)) by lia.
    rewrite Z.pow_0_r, Z.div_1_r. reflexivity.
  - apply Z.leb_gt in E. rewrite (Z.max_l 0 e), (Z.max_r 0 (- e)) by lia.
    rewrite Z.pow_0_r, Z.mul_1_r. reflexivity.
Qed.

(** What the two coercions make of a number literal. *)
Lemma number_coerced n :
  is_number n ->
  exists N D, denotes n N D /\
    (((2 ^ 1024 - 2 ^ 970) * D <= N)%Z /\ int_or_none (float_or_none (Some n)) = None
     \/ (N < (2 ^ 1024 - 2 ^ 970) * D)%Z /\
        exists z, int_or_none (float_or_none (Some n)) = Some z /\
          (N = 0%Z /\ z = 0%Z \/
           exists m e, rounds_to N D m e /\ z = truncated m e /\
             forall m' e', rounds_to N D m' e' -> m' = m /\ e' = e)).
Proof.
  intros Hn. destruct (float_or_none_denotes n Hn) as (N & D & Hden & HN & HD & ->).
  exists N, D. split; [exact Hden|].
  destruct (Z.eq_dec N 0) as [-> | Hnz].
  - right. split; [assert (0 < 2 ^ 1024 - 2 ^ 970)%Z by reflexivity; nia|].
    exists 0%Z. split; [reflexivity | left; auto].
  - destruct (float_of_ratio_rounds N D ltac:(lia) HD) as (m & e & Hr & Ho).
    pose proof (overflows_iff N D m e ltac:(lia) HD Hr) as Hiff.
    destruct Ho as [[Ho ->] | [Ho ->]].
    + left. split; [apply Hiff; exact Ho | reflexivity].
    + right. split.
      * destruct (Z_lt_le_dec N ((2 ^ 1024 - 2 ^ 970) * D)) as [L|L]; auto.
        exfalso. apply Ho, Hiff. exact L.
      * exists (truncated m e). split; [apply int_or_none_truncated|].
        right. exists m, e. split; [exact Hr|]. split; [reflexivity|].
        intros m' e' Hr'. apply (rounds_to_unique N D m' e' m e); auto. lia.
Qed.

(** ** The dimensions of a page *)

(** C7, as the code has it.  When the dimension pattern is absent from the
    page, the width and the height are 1920 and 1080.  When the page
    contains a fragment of the pattern, they come from the two numbers of
    the first such fragment, each rounded to the nearest float (binary64,
    ties to even: the one float [m * 2^e] that [rounds_to] names) and
    truncated to an integer; a number of at least [2^1024 - 2^970] rounds
    to infinity and gives [None], not an integer.
    For a page whose first fragment is
    ["C":{"A":1280.0,"B":720.0,"C":"D"}] they are 1280 and 720. *)
Theorem dimensions_default_or_rounded :
  (forall page, ~ dimensions_occur page -> dimensions page = (Some 1920%Z, Some 1080%Z))
  /\ (forall pre frag post n1 n2,
        is_dimensions frag n1 n2 ->
        (forall pre' frag' post' m1 m2,
            pre ++ frag ++ post = pre' ++ frag' ++ post' -> is_dimensions frag' m1 m2 ->
            length pre <= length pre') ->
        dimensions (pre ++ frag ++ post) =
          (int_or_none (float_or_none (Some n1)), int_or_none (float_or_none (Some n2))))
  /\ (forall n,
        is_number n ->
        exists N D, denotes n N D /\
          (((2 ^ 1024 - 2 ^ 970) * D <= N)%Z /\
             int_or_none (float_or_none (Some n)) = None
           \/ (N < (2 ^ 1024 - 2 ^ 970) * D)%Z /\
              exists z, int_or_none (float_or_none (Some n)) = Some z /\
                (N = 0%Z /\ z = 0%Z \/
                 exists m e, rounds_to N D m e /\ z = truncated m e /\
                   forall m' e', rounds_to N D m' e' -> m' = m /\ e' = e)))
  /\ (forall pre post,
        (forall pre' frag' post' m1 m2,
            pre ++ dimensions_example ++ post = pre' ++ frag' ++ post' ->
            is_dimensions frag' m1 m2 -> length pre <= length pre') ->
        dimensions (pre ++ dimensions_example ++ post) = (Some 1280%Z, Some 720%Z)).
Proof.
  destruct dimensions_of_page as (Ha & Hb & Hc).
  split; [exact Ha|]. split; [exact Hb|]. split; [exact number_coerced | exact Hc].
Qed.

Lemma dimensions_default_or_rounded_witness :
  dimensions $"<html><title>Design</title></html>" = (Some 1920%Z, Some 1080%Z)
  /\ dimensions ($"bootstrap={" ++ dimensions_example ++ $"};") =
       (int_or_none (float_or_none (Some $"1280.0")),
        int_or_none (float_or_none (Some $"720.0")))
  /\ (exists N D, denotes $"1080.5" N D /\ (N < (2 ^ 1024 - 2 ^ 970) * D)%Z)
  /\ dimensions ($"bootstrap={" ++ dimensions_example ++ $"};") = (Some 1280%Z, Some 720%Z).
Proof.
  destruct dimensions_default_or_rounded as (Ha & Hb & Hn & Hc).
  assert (N1 : is_number $"1280.0").
  { exists $"1280", $".0". repeat split; try discriminate.
    right. exists $"0". repeat split. discriminate. }
  assert (N2 : is_number $"720.0").
  { exists $"720", $".0". repeat split; try discriminate.
    right. exists $"0". repeat split. discriminate. }
  assert (N3 : is_number $"1080.5").
  { exists $"1080", $".5". repeat split; try discriminate.
    right. exists $"5". repeat split. discriminate. }
  split; [|split; [|split]].
  - apply Ha. apply dimensions_search_none. vm_compute. reflexivity.
  - apply (Hb $"bootstrap={" dimensions_example $"};" $"1280.0" $"720.0").
    + exists (fun _ => []). repeat split; auto.
    + apply (dimensions_within_false 11). vm_compute. reflexivity.
  - destruct (Hn $"1080.5" N3) as (N & D & Hd & [[_ Hnone] | [Hlt _]]).
    + vm_compute in Hnone. discriminate Hnone.
    + exists N, D. auto.
  - apply Hc. apply (dimensions_within_false 11). vm_compute. reflexivity.
Defined.

(** C7 as stated fails: a page whose fragment gives the width as 1 followed
    by 309 zeros has no integer width.  The number is read as an infinite
    float, [int] raises on it and [int_or_none] answers [None]. *)
Lemma huge_dimension_is_not_an_integer :
  (exists pre frag post n2,
      huge_dimensions_page = pre ++ frag ++ post /\ is_dimensions frag huge_number n2)
  /\ dimensions huge_dimensions_page = (None, Some 720%Z).
Proof.
  split.
  - exists $"<script>", (dimensions_fragment (fun _ => []) huge_number $"720.0"),
      $"</script>", $"720.0".
    split; [reflexivity|]. exists (fun _ => []). repeat split.
    + exists huge_number, []. repeat split; try discriminate.
      left. reflexivity.
    + exists $"720", $".0". repeat split; try discriminate.
      right. exists $"0". repeat split. discriminate.
  - vm_compute. reflexivity.
Qed.
